(** * Poplar: hook dispatch and parameter validation

    A shallow embedding of [lib/poplar.js] (the listener registry, the
    listener tree, [execHooks] and [invokeMethodInContext]) and of
    [lib/validation.js] ([ValidationError] and [Validate]), followed by
    the properties proved about them.

    Conventions of the embedding:
    - JavaScript values are the inductive type [value]; truthiness is
      [truthy], [a || b] is [js_or], a property read is [prop].
    - A plain object used as a map is an association list in property
      enumeration order ([Obj.obj]): assignment keeps the position of an
      existing key and appends a new one.  Property names are taken not
      to be canonical array indices nor names inherited from
      [Object.prototype] (method names contain a dot, event names start
      with a phase).
    - The continuation passing code stays in continuation passing style:
      a callback is a state transformer, and never calling a callback is
      returning the state as it is.  The state is the invocation context
      together with a trace of the calls the engine makes.
    - Hooks and method handlers are inputs.  A hook is given by what it
      does to the context and by the one signal it gives the engine: a
      call of its continuation, a returned value (possibly a then-able),
      or a throw.  A handler calls back once or never.
    - [minimatch], lodash's [flatten], the [validator] package and
      [helper.isEmpty] are outside the embedded files and are parameters.
      [ApiBuilder] and the method objects are outside as well and are
      records of what the dispatcher reads from them. *)

From Stdlib Require Import String Ascii List ZArith Bool Lia.
From Stdlib Require Import DecimalString.
Import ListNotations.

Local Open Scope string_scope.
Local Open Scope list_scope.

(** ** JavaScript values *)

(** How a then-able settles: [result.then(onFulfilled, onRejected)] calls
    [onFulfilled], calls [onRejected] with the reason, or neither. *)
Inductive settlement (V : Type) : Type :=
| Fulfilled
| Rejected (reason : V)
| Pending.

Arguments Fulfilled {V}.
Arguments Rejected {V} reason.
Arguments Pending {V}.

#[local] Set Warnings "-register-all".

Inductive value : Type :=
| VUndefined
| VNull
| VBool (b : bool)
| VNum (n : Z)
| VStr (s : string)
| VArr (items : list value)
| VObj (props : list (string * value))
| VError (message : string)
| VThenable (outcome : settlement value).

(** [if (v)] *)
Definition truthy (v : value) : bool :=
  match v with
  | VUndefined | VNull => false
  | VBool b => b
  | VNum n => negb (n =? 0)%Z
  | VStr s => negb (s =? "")
  | VArr _ | VObj _ | VError _ | VThenable _ => true
  end.

(** [a || b] *)
Definition js_or (a b : value) : value := if truthy a then a else b.

(** [typeof v.then === 'function'] *)
Definition has_then (v : value) : bool :=
  match v with
  | VThenable _ => true
  | _ => false
  end.

(** The two values on which a property read throws a [TypeError]. *)
Definition nullish (v : value) : bool :=
  match v with
  | VUndefined | VNull => true
  | _ => false
  end.

Fixpoint assoc {V : Type} (l : list (string * V)) (k : string) : option V :=
  match l with
  | [] => None
  | (k', v) :: l' => if k' =? k then Some v else assoc l' k
  end.

(** [v[name]] for a [v] that is neither [undefined] nor [null]. *)
Definition prop (v : value) (name : string) : value :=
  match v with
  | VObj props =>
      match assoc props name with
      | Some x => x
      | None => VUndefined
      end
  | VError m => if name =? "message" then VStr m else VUndefined
  | _ => VUndefined
  end.

Definition string_of_Z (n : Z) : string :=
  NilZero.string_of_int (Z.to_int n).

Fixpoint join (sep : string) (l : list string) : string :=
  match l with
  | [] => ""
  | [x] => x
  | x :: l' => x ++ sep ++ join sep l'
  end.

(** [v.toString()] for a [v] that is neither [undefined] nor [null]. *)
Fixpoint toString (v : value) : string :=
  match v with
  | VUndefined | VNull => ""
  | VBool true => "true"
  | VBool false => "false"
  | VNum n => string_of_Z n
  | VStr s => s
  | VArr items => join "," (map toString items)
  | VObj _ => "[object Object]"
  | VError m => if m =? "" then "Error" else "Error: " ++ m
  | VThenable _ => "[object Promise]"
  end.

(** A call of a user supplied function either returns or throws. *)
Inductive completion (A : Type) : Type :=
| Returns (a : A)
| Throws (e : value).

Arguments Returns {A} a.
Arguments Throws {A} e.

(** ** Plain objects as ordered maps *)

Module Obj.

Definition obj (V : Type) : Type := list (string * V).

Definition empty {V : Type} : obj V := [].

(** [o[k]], [None] for [undefined] *)
Definition get {V : Type} (o : obj V) (k : string) : option V := assoc o k.

(** [o[k] = v] *)
Fixpoint set {V : Type} (o : obj V) (k : string) (v : V) : obj V :=
  match o with
  | [] => [(k, v)]
  | (k', v') :: o' =>
      if k' =? k then (k, v) :: o' else (k', v') :: set o' k v
  end.

(** [delete o[k]] *)
Fixpoint del {V : Type} (o : obj V) (k : string) : obj V :=
  match o with
  | [] => []
  | (k', v') :: o' => if k' =? k then o' else (k', v') :: del o' k
  end.

(** [Object.keys(o)] *)
Definition keys {V : Type} (o : obj V) : list string := map fst o.

(** [o.hasOwnProperty(k)] *)
Definition has {V : Type} (o : obj V) (k : string) : bool :=
  match get o k with
  | Some _ => true
  | None => false
  end.

(** [_.extend({}, o)] for an [o] that may be missing *)
Definition extend {V : Type} (o : option (obj V)) : obj V :=
  match o with
  | Some o' => fold_left (fun acc kv => set acc (fst kv) (snd kv)) o' empty
  | None => empty
  end.

End Obj.

(** ** The dispatcher of [lib/poplar.js] *)

Module Poplar.

(** *** Hooks, methods and the run-time state *)

(** The invocation context is a JavaScript object carrying at least the
    [result] and [error] properties. *)
Definition context : Type := Obj.obj value.

(** What a hook does with the continuation it is given, as the engine
    can observe it: it calls the continuation with one argument
    ([next()] is [Continue VUndefined]), now or later; it returns a value
    without ever calling it (a then-able, or anything else); or it
    throws. *)
Inductive signal : Type :=
| Continue (err : value)
| Return (result : value)
| Throw (err : value).

(** What a method handler does with the callback of
    [method.invoke(ctx, callback)]. *)
Inductive reply : Type :=
| Callback (err result : value)
| NoCallback.

Record method : Type := mkMethod {
  fullName : string;
  invoke_body : context -> context * reply
}.

(** A hook is called with the method (as [this] and as third argument)
    and the context; [hname] only identifies it in traces. *)
Record hook : Type := mkHook {
  hname : string;
  hbody : method -> context -> context * signal
}.

(** The engine's own calls, recorded in order: [cur.call(...)] of a
    hook in a phase, [method.invoke(...)], and the call of a final
    callback that records its argument ([observe] below). *)
Inductive event : Type :=
| Ran (when name : string)
| Invoked (name : string)
| Final (err : value).

Record state : Type := mkState {
  ctx : context;
  trace : list event
}.

Definition callback : Type := value -> state -> state.

Definition log (e : event) (s : state) : state :=
  mkState (ctx s) (trace s ++ [e]).

(** [ctx[k] = v] *)
Definition assign (k : string) (v : value) (s : state) : state :=
  mkState (Obj.set (ctx s) k v) (trace s).

(** [cur.call(method, ctx, execStack, method)] up to the point where
    the hook signals. *)
Definition call (when : string) (cur : hook) (m : method) (s : state)
    : state * signal :=
  let s1 := log (Ran when (hname cur)) s in
  let (c, sig) := hbody cur m (ctx s1) in
  (mkState c (trace s1), sig).

(** A final callback that only records the argument it is called with. *)
Definition observe : callback := fun err s => log (Final err) s.

(** [method.invoke(ctx, callback)] *)
Definition invoke (m : method) (s : state)
    (cb : value -> value -> state -> state) : state :=
  let s1 := log (Invoked (fullName m)) s in
  let (c, r) := invoke_body m (ctx s1) in
  let s2 := mkState c (trace s1) in
  match r with
  | Callback err result => cb err result s2
  | NoCallback => s2
  end.

(** [result.then(onFulfilled, onRejected)] *)
Definition then_ (result : value) (onFulfilled : state -> state)
    (onRejected : callback) (s : state) : state :=
  match result with
  | VThenable Fulfilled => onFulfilled s
  | VThenable (Rejected reason) => onRejected reason s
  | _ => s
  end.

(** *** The registry *)

(** One entry of a builder's [_events]: a single function, an array
    whose items may or may not be functions, or something else. *)
Inductive slot : Type :=
| SlotFn (fn : hook)
| SlotArr (fns : list (option hook))
| SlotOther.

Record ApiBuilder : Type := mkApiBuilder {
  name : string;
  builder_events : Obj.obj slot;
  methods : Obj.obj method
}.

Record Poplar : Type := mkPoplar {
  _apiBuilders : Obj.obj ApiBuilder;
  _methods : Obj.obj method;
  _events : Obj.obj (list hook);
  _listenerTree : Obj.obj (Obj.obj (list string))
}.

(** [new Poplar(options)] *)
Definition create : Poplar :=
  mkPoplar Obj.empty Obj.empty Obj.empty Obj.empty.

(** [allMethods()] *)
Definition allMethods (p : Poplar) : list method := map snd (_methods p).

(** [this.listeners(type)] of the event emitter *)
Definition listeners (p : Poplar) (type : string) : list hook :=
  match Obj.get (_events p) type with
  | Some fns => fns
  | None => []
  end.

(** [this.on(type, fn)] of the event emitter *)
Definition on (type : string) (fn : hook) (p : Poplar) : Poplar :=
  mkPoplar (_apiBuilders p) (_methods p)
    (Obj.set (_events p) type (listeners p type ++ [fn]))
    (_listenerTree p).

Section Matcher.

(** [minimatch(candidate, pattern)] *)
Variable minimatch : string -> string -> bool.

(** [util.format('%s.%s', a, b)] *)
Definition format_dot (a b : string) : string := a ++ "." ++ b.

Definition searchListeners (p : Poplar) (methodName type : string)
    : list string :=
  let allListenerNames := Obj.keys (_events p) in
  let fullType := format_dot type methodName in
  filter (fun name => minimatch fullType name) allListenerNames.

Definition searchListenerTree (p : Poplar) (methodName type : string)
    : option (list string) :=
  match Obj.get (_listenerTree p) methodName with
  | Some listeners => Obj.get listeners type
  | None => Some []
  end.

Definition phases : list string := ["before"; "after"; "afterError"].

(** One round of [_.each(methods, function(fn, name) { ... })] in
    [analyzeListenerTree]. *)
Definition tree_step (p : Poplar)
    (listenerTree : Obj.obj (Obj.obj (list string))) (name : string)
    : Obj.obj (Obj.obj (list string)) :=
  let entry :=
    match Obj.get listenerTree name with
    | Some e => e
    | None => Obj.empty
    end in
  Obj.set listenerTree name
    (fold_left
       (fun e type => Obj.set e type (searchListeners p name type))
       phases entry).

Definition analyzeListenerTree (p : Poplar) : Poplar :=
  let listenerTree :=
    fold_left (tree_step p) (Obj.keys (_methods p)) Obj.empty in
  mkPoplar (_apiBuilders p) (_methods p) (_events p) listenerTree.

Definition before (methodMatch : string) (fn : hook) (p : Poplar)
    : Poplar :=
  analyzeListenerTree (on ("before." ++ methodMatch) fn p).

Definition after (methodMatch : string) (fn : hook) (p : Poplar)
    : Poplar :=
  analyzeListenerTree (on ("after." ++ methodMatch) fn p).

Definition afterError (methodMatch : string) (fn : hook) (p : Poplar)
    : Poplar :=
  analyzeListenerTree (on ("afterError." ++ methodMatch) fn p).

(** [mergeListeners(apiBuilder)] inside [use] *)
Definition mergeListeners (emitter : ApiBuilder) (p : Poplar) : Poplar :=
  fold_left
    (fun self ev =>
       let type := fst ev in
       match snd ev with
       | SlotArr fns =>
           fold_left
             (fun self' fn =>
                match fn with
                | Some f => on type f self'
                | None => self'
                end)
             fns self
       | SlotFn fn => on type fn self
       | SlotOther => self
       end)
    (builder_events emitter) p.

(** [mergeMethods(apiBuilder)] inside [use] *)
Definition mergeMethods (builder : ApiBuilder) (p : Poplar) : Poplar :=
  fold_left
    (fun self m =>
       mkPoplar (_apiBuilders self)
         (Obj.set (_methods self) (format_dot (name builder) (fst m))
            (snd m))
         (_events self) (_listenerTree self))
    (methods builder) p.

Definition duplicate_message (n : string) : string :=
  "Can't use the same ApiBuilder: " ++ n ++ " more than once!".

(** [use(name, options)], where [apiBuilder] is the builder passed as
    [name] or the one constructed from a name and options;
    [assert(false, msg)] throws an error carrying [msg], which leaves
    the function before the tree is analysed. *)
Definition use (apiBuilder : ApiBuilder) (p : Poplar)
    : completion Poplar :=
  let n := name apiBuilder in
  match Obj.get (_apiBuilders p) n with
  | None =>
      let p1 :=
        mkPoplar (Obj.set (_apiBuilders p) n apiBuilder) (_methods p)
          (_events p) (_listenerTree p) in
      let p2 := mergeListeners apiBuilder p1 in
      let p3 := mergeMethods apiBuilder p2 in
      Returns (analyzeListenerTree p3)
  | Some _ => Throws (VError (duplicate_message n))
  end.

(** *** Running hooks *)

(** [_.isEmpty(listenerNames)] *)
Definition isEmptyNames (l : option (list string)) : bool :=
  match l with
  | Some (_ :: _) => false
  | _ => true
  end.

(** The closure [execStack] of [execHooks]; the list argument is the
    variable [stack], of which [stack.shift()] takes the head. *)
Fixpoint execStack (when : string) (m : method) (stack : list hook)
    (next : callback) (err : value) (s : state) : state :=
  if truthy err then next err s
  else
    match stack with
    | cur :: stack' =>
        match call when cur m s with
        | (s', Continue e) => execStack when m stack' next e s'
        | (s', Return result) =>
            if truthy result && has_then result
            then then_ result (fun s0 => next VUndefined s0) next s'
            else s'
        | (s', Throw e) => next e s'
        end
    | [] => next VUndefined s
    end.

(** [listenerNames] in [execHooks]: the tree's list, or the live
    scan when that list is empty or missing. *)
Definition listenerNames (p : Poplar) (when : string) (m : method)
    : list string :=
  let methodName := fullName m in
  let names := searchListenerTree p methodName when in
  if isEmptyNames names
  then searchListeners p methodName when
  else match names with Some l => l | None => [] end.

(** The value of [stack] once every listener name has been added. *)
Definition hookStack (p : Poplar) (when : string) (m : method)
    : list hook :=
  fold_left (fun stack listenerName => stack ++ listeners p listenerName)
    (listenerNames p when m) [].

Definition execHooks (p : Poplar) (when : string) (m : method)
    (s : state) (next : callback) : state :=
  execStack when m (hookStack p when m) next VUndefined s.

Definition invokeMethodInContext (p : Poplar) (m : method) (s : state)
    (cb : callback) : state :=
  let triggerErrorAndCallBack (err : value) (s0 : state) : state :=
    execHooks p "afterError" m (assign "error" err s0)
      (fun hookErr => cb (js_or hookErr err)) in
  execHooks p "before" m s
    (fun err s1 =>
       if truthy err then triggerErrorAndCallBack err s1
       else
         invoke m s1
           (fun err result s2 =>
              let s3 := assign "result" result s2 in
              if truthy err then cb err s3
              else
                execHooks p "after" m s3
                  (fun err s4 =>
                     if truthy err then triggerErrorAndCallBack err s4
                     else cb VUndefined s4))).

(** *** The outcome of a chain

    What a chain does with [next], as a value: the state in which
    [next] is called and its argument, or the state in which the
    chain comes to rest without calling it. *)
Inductive outcome : Type :=
| Signalled (err : value)
| Stalled.

Fixpoint runStack (when : string) (m : method) (stack : list hook)
    (err : value) (s : state) : state * outcome :=
  if truthy err then (s, Signalled err)
  else
    match stack with
    | cur :: stack' =>
        match call when cur m s with
        | (s', Continue e) => runStack when m stack' e s'
        | (s', Return (VThenable Fulfilled)) => (s', Signalled VUndefined)
        | (s', Return (VThenable (Rejected reason))) =>
            (s', Signalled reason)
        | (s', Return _) => (s', Stalled)
        | (s', Throw e) => (s', Signalled e)
        end
    | [] => (s, Signalled VUndefined)
    end.

Definition runHooks (p : Poplar) (when : string) (m : method)
    (s : state) : state * outcome :=
  runStack when m (hookStack p when m) VUndefined s.

(** Every hook of [pre] calls its continuation without an error; the
    result is the state in which the last of them does so. *)
Fixpoint proceeds (when : string) (m : method) (pre : list hook)
    (s : state) : option state :=
  match pre with
  | [] => Some s
  | cur :: pre' =>
      match call when cur m s with
      | (s', Continue e) =>
          if truthy e then None else proceeds when m pre' s'
      | _ => None
      end
  end.

(** The events of calling the hooks [hs] in phase [when]. *)
Definition ran (when : string) (hs : list hook) : list event :=
  map (fun h => Ran when (hname h)) hs.



(** Where a hook chain of an invocation fails: the before chain ends
    with a truthy error [E] in state [sf], or the before chain and
    the handler succeed and the after chain ends with [E] in [sf]. *)
Inductive chain_fails (p : Poplar) (m : method) (s : state)
    (E : value) (sf : state) : Prop :=
| before_fails :
    runHooks p "before" m s = (sf, Signalled E) ->
    truthy E = true ->
    chain_fails p m s E sf
| after_fails (s1 : state) (v err result : value) (c2 : context) :
    runHooks p "before" m s = (s1, Signalled v) ->
    truthy v = false ->
    invoke_body m (ctx s1) = (c2, Callback err result) ->
    truthy err = false ->
    runHooks p "after" m
      (assign "result" result
         (mkState c2 (trace s1 ++ [Invoked (fullName m)])))
    = (sf, Signalled E) ->
    truthy E = true ->
    chain_fails p m s E sf.

(** *** The lookup as the specification words it

    The ordered sequence of the registered patterns [P] for which
    [match("<phase>.<MethodName>", P)] is true, in the registry's
    insertion order. *)
Definition spec_lookup (patterns : list string) (phase M : string)
    : list string :=
  filter (fun P => minimatch (phase ++ "." ++ M) P) patterns.

(** The tree [t] has an entry for [M] that holds the live scan of each
    phase. *)
Definition fresh_at (p : Poplar) (t : Obj.obj (Obj.obj (list string)))
    (M : string) : Prop :=
  exists e,
    Obj.get t M = Some e /\
    forall phase, In phase phases ->
      Obj.get e phase = Some (searchListeners p M phase).

(** The registries that the registration calls can build. *)
Inductive reachable : Poplar -> Prop :=
| reach_create : reachable create
| reach_before methodMatch fn p :
    reachable p -> reachable (before methodMatch fn p)
| reach_after methodMatch fn p :
    reachable p -> reachable (after methodMatch fn p)
| reach_afterError methodMatch fn p :
    reachable p -> reachable (afterError methodMatch fn p)
| reach_use b p p' :
    reachable p -> use b p = Returns p' -> reachable p'.

(** Every list the tree [t] holds is the live scan for its method and
    its key. *)
Definition holds_scans (p : Poplar) (t : Obj.obj (Obj.obj (list string)))
    : Prop :=
  forall M e type l,
    Obj.get t M = Some e -> Obj.get e type = Some l ->
    l = searchListeners p M type.

(** What registering [fn] under the event [type] does, from [p] to
    [p']: [fn] is the last listener of [type]; it is in the stack of
    every phase and method that [type] matches; the stack of every
    phase and method that [type] does not match is as it was. *)
Definition registers (p p' : Poplar) (type : string) (fn : hook) : Prop :=
  listeners p' type = listeners p type ++ [fn]
  /\ forall when m,
       (minimatch (format_dot when (fullName m)) type = true ->
        In fn (hookStack p' when m))
       /\ (minimatch (format_dot when (fullName m)) type = false ->
           hookStack p' when m = hookStack p when m).

(** The entry that [analyzeListenerTree] builds for a method name that
    has none yet: the three phases, in the order the code sets them. *)
Definition tree_entry (p : Poplar) (M : string) : Obj.obj (list string) :=
  [("before", searchListeners p M "before");
   ("after", searchListeners p M "after");
   ("afterError", searchListeners p M "afterError")].

End Matcher.

(** The functions [mergeListeners] takes from one entry of a builder's
    [_events], in order. *)
Definition slot_fns (sl : slot) : list hook :=
  match sl with
  | SlotFn fn => [fn]
  | SlotArr fns =>
      flat_map (fun fn => match fn with Some f => [f] | None => [] end) fns
  | SlotOther => []
  end.

(** The functions a builder holds for the event [type], in the order
    of its [_events]. *)
Definition builder_listeners (b : ApiBuilder) (type : string) : list hook :=
  flat_map (fun ev => if fst ev =? type then slot_fns (snd ev) else [])
    (builder_events b).

(** The entries [mergeMethods] installs for a builder. *)
Definition installed (b : ApiBuilder) : Obj.obj method :=
  map (fun kv => (format_dot (name b) (fst kv), snd kv)) (methods b).

End Poplar.

(** ** The validation of [lib/validation.js] *)

Module Validation.

(** [this._errors]: parameter name to validator name to message *)
Definition ValidationError : Type := Obj.obj (Obj.obj value).

Definition new_ValidationError : ValidationError := Obj.empty.

Definition defaultMessage (name validatorName : string) : string :=
  name ++ ": '" ++ validatorName ++ "' validation failed".

Definition add (name validatorName : string) (msg : value)
    (this : ValidationError) : ValidationError :=
  let msg := js_or msg (VStr (defaultMessage name validatorName)) in
  let obj :=
    match Obj.get this name with
    | Some o => o
    | None => Obj.empty
    end in
  Obj.set this name (Obj.set obj validatorName msg).

Definition flatten (this : ValidationError) : list string :=
  let messages :=
    map (fun entry =>
           let name := fst entry in
           map (fun kv =>
                  let validatorName := fst kv in
                  let text := toString (snd kv) in
                  if text =? "" then defaultMessage name validatorName
                  else text)
             (snd entry))
      this in
  concat messages.

Definition toHuman (this : ValidationError) : string :=
  join "; " (flatten this).



(** The entries of [_errors] in enumeration order: parameter by
    parameter, and for each parameter validator by validator. *)
Definition triples (this : ValidationError)
    : list (string * string * value) :=
  flat_map (fun entry =>
              map (fun kv => (fst entry, fst kv, snd kv)) (snd entry))
    this.


(** The text [flatten] produces for one entry. *)
Definition text (f : string * string * value) : string :=
  let t := toString (snd f) in
  if t =? "" then defaultMessage (fst (fst f)) (snd (fst f)) else t.

(** A validator spec is a function of the value and the parameter bag,
    or any other value (an options object, [true], [false], ...). *)
Inductive spec : Type :=
| SFun (fn : value -> Obj.obj value -> completion value)
| SVal (opts : value).

Record accept : Type := mkAccept {
  arg : string;
  validates : option (Obj.obj spec)
}.

Definition bind {A B : Type} (c : completion A) (k : A -> completion B)
    : completion B :=
  match c with
  | Returns a => k a
  | Throws e => Throws e
  end.

(** [_.each(l, f)] threading the error collector; a throw of [f] ends
    the iteration. *)
Fixpoint each {A S : Type} (l : list A) (f : A -> S -> completion S)
    (s : S) : completion S :=
  match l with
  | [] => Returns s
  | a :: l' => bind (f a s) (each l' f)
  end.

(** The [TypeError] of reading [message] from [undefined] or [null]. *)
Definition type_error (e : value) : value :=
  VError ("Cannot read property 'message' of "
          ++ match e with VNull => "null" | _ => "undefined" end).

(** The read of [e.message] in a [catch (e)] block. *)
Definition message_of (e : value) : completion value :=
  if nullish e then Throws (type_error e) else Returns (prop e "message").

Section Validate.

(** [helper.isEmpty] *)
Variable isEmpty : value -> bool.
(** [Validator[name]] when it is a function *)
Variable Validator : string -> option (list value -> completion value).
(** [_.flatten] on an array of arguments *)
Variable lodash_flatten : list value -> list value.

(** [Validate] reaches the error collector only through its method
    [add]; the collector's type and the method are abstracted here
    and instantiated below. *)
Variable collector : Type.
Variable add_ : string -> string -> value -> collector -> collector.

(** A function valued validator inside
    [try { ... } catch (e) { debug(..., e.message, ...) }] *)
Definition try_function (fn : value -> Obj.obj value -> completion value)
    (name validatorName : string) (val : value) (params : Obj.obj value)
    (validationError : collector) : completion collector :=
  match fn val params with
  | Returns result =>
      Returns (if truthy result
               then add_ name validatorName result validationError
               else validationError)
  | Throws e => bind (message_of e) (fun _ => Returns validationError)
  end.

(** The branch [if (helper.isEmpty(val))] *)
Definition check_required (name : string) (val : value)
    (params : Obj.obj value) (validators : Obj.obj spec)
    (validationError : collector) : completion collector :=
  match Obj.get validators "required" with
  | Some (SFun required) =>
      try_function required name "required" val params validationError
  | Some (SVal required) =>
      Returns (if truthy required
               then add_ name "required" (prop required "message")
                      validationError
               else validationError)
  | None => Returns validationError
  end.

(** The body of
    [_.each(validators, function(validatorOpts, validatorName) ...)] *)
Definition check_validator (name : string) (val : value)
    (params : Obj.obj value) (kv : string * spec)
    (validationError : collector) : completion collector :=
  let validatorName := fst kv in
  match snd kv with
  | SFun fn =>
      try_function fn name validatorName val params validationError
  | SVal opts =>
      let validatorOpts := js_or opts (VObj []) in
      if negb (truthy validatorOpts) then Returns validationError
      else
        let args :=
          if truthy (prop validatorOpts "args")
          then lodash_flatten [val; prop validatorOpts "args"]
          else [val] in
        match Validator validatorName with
        | Some validator =>
            bind (validator args)
              (fun ok =>
                 Returns (if truthy ok then validationError
                          else add_ name validatorName
                                 (prop validatorOpts "message")
                                 validationError))
        | None => Returns validationError
        end
  end.

(** [params[name]] *)
Definition param (params : Obj.obj value) (name : string) : value :=
  match Obj.get params name with
  | Some v => v
  | None => VUndefined
  end.

(** The body of [_.each(accepts, function(accept) ...)] *)
Definition validate_accept (params : Obj.obj value) (a : accept)
    (validationError : collector) : completion collector :=
  let name := arg a in
  let val := param params name in
  let validators := Obj.extend (validates a) in
  if isEmpty val
  then check_required name val params validators validationError
  else
    let validators := Obj.del validators "required" in
    each validators (check_validator name val params) validationError.

Definition Validate_with (validationError : collector)
    (params : option (Obj.obj value)) (accepts : option (list accept))
    : completion collector :=
  let params := match params with Some o => o | None => Obj.empty end in
  let accepts := match accepts with Some l => l | None => [] end in
  each accepts (validate_accept params) validationError.

End Validate.

(** [Validate(params, accepts)] with [new ValidationError()] *)
Definition Validate (isEmpty : value -> bool)
    (Validator : string -> option (list value -> completion value))
    (lodash_flatten : list value -> list value)
    (params : option (Obj.obj value)) (accepts : option (list accept))
    : completion ValidationError :=
  Validate_with isEmpty Validator lodash_flatten ValidationError add
    new_ValidationError params accepts.

(** The calls of [add] made by [Validate], in order: every recorded
    failure as (parameter, validator, message argument). *)
Definition failure : Type := string * string * value.

(** The list collector of [failures]. *)
Definition record (name validatorName : string) (msg : value)
    (l : list failure) : list failure :=
  l ++ [(name, validatorName, msg)].

Definition failures (isEmpty : value -> bool)
    (Validator : string -> option (list value -> completion value))
    (lodash_flatten : list value -> list value)
    (params : option (Obj.obj value)) (accepts : option (list accept))
    : completion (list failure) :=
  Validate_with isEmpty Validator lodash_flatten (list failure) record
    [] params accepts.

(** The collector obtained by doing the recorded calls of [add_] on [c0]. *)
Definition replay {C : Type} (add_ : string -> string -> value -> C -> C)
    (c0 : C) (l : list failure) : C :=
  fold_left (fun c f => add_ (fst (fst f)) (snd (fst f)) (snd f) c) l c0.

(** The [required] spec of a rule reports a failure on an empty value:
    it is a function that returns a truthy value, or it is a truthy
    value that is not a function. *)
Definition required_fails (params : Obj.obj value) (a : accept) : bool :=
  match Obj.get (Obj.extend (validates a)) "required" with
  | Some (SFun fn) =>
      match fn (param params (arg a)) params with
      | Returns result => truthy result
      | Throws _ => false
      end
  | Some (SVal required) => truthy required
  | None => false
  end.

(** Modelled from the spec: [helper.isEmpty] of [lib/helper.js], which
    the spec describes as covering the absent, null and empty-string
    cases. *)
Definition helper_isEmpty (v : value) : bool :=
  match v with
  | VUndefined | VNull => true
  | VStr s => s =? ""
  | _ => false
  end.

(** [this._errors[name][validatorName]] *)
Definition message_at (this : ValidationError) (name validatorName : string)
    : option value :=
  match Obj.get this name with
  | Some obj => Obj.get obj validatorName
  | None => None
  end.

(** One level of [_.flatten], as used on the argument array. *)
Definition flatten1 (l : list value) : list value :=
  flat_map (fun v => match v with VArr items => items | _ => [v] end) l.

(** The shape every collector built by [add] has. *)
Definition well_formed (e : ValidationError) : Prop :=
  NoDup (Obj.keys e)
  /\ forall n obj, In (n, obj) e -> obj <> [] /\ NoDup (Obj.keys obj).

(** [e[n][v]] is present. *)
Definition has_pair (e : ValidationError) (n v : string) : Prop :=
  exists obj, Obj.get e n = Some obj /\ Obj.get obj v <> None.

(** Two runs of [Validate], one on a collector [C] and one on the list
    collector, agree: both throw the same value, or both return and the
    collector is the replay of the list. *)
Definition agree {C : Type} (add_ : string -> string -> value -> C -> C)
    (c0 : C) (x : completion C) (y : completion (list failure)) : Prop :=
  match x, y with
  | Returns c, Returns l => c = replay add_ c0 l
  | Throws e, Throws e' => e = e'
  | _, _ => False
  end.

(** A recorded failure is under [required] exactly when the value of its
    parameter is empty. *)
Definition required_iff_empty (isEmpty : value -> bool)
    (params : Obj.obj value) (f : failure) : Prop :=
  if isEmpty (param params (fst (fst f)))
  then snd (fst f) = "required"
  else snd (fst f) <> "required".

(** Where a recorded failure comes from: a rule for its parameter that
    declares its validator, which, when it is given by a value and not
    by a function, is [required] or a function of the validator
    package. *)
Definition declared
    (Validator : string -> option (list value -> completion value))
    (accepts : list accept) (f : failure) : Prop :=
  exists a sp,
    In a accepts /\ arg a = fst (fst f)
    /\ Obj.get (Obj.extend (validates a)) (snd (fst f)) = Some sp
    /\ match sp with
       | SFun _ => True
       | SVal _ =>
           snd (fst f) = "required" \/ Validator (snd (fst f)) <> None
       end.

(** Two rules that [Validate] cannot tell apart on the parameters
    [params]: they name the same parameter and, when its value is
    empty, carry the same [required] spec; when it is not, they are the
    same rule. *)
Definition same_for (isEmpty : value -> bool) (params : Obj.obj value)
    (a a' : accept) : Prop :=
  arg a = arg a'
  /\ if isEmpty (param params (arg a))
     then Obj.get (Obj.extend (validates a)) "required"
          = Obj.get (Obj.extend (validates a')) "required"
     else a = a'.

End Validation.

(** ** A concrete registry

    The fixture of the repository's test suite ([generateExecuteHooks]):
    a collection [test] with one method, two before hooks, two after
    hooks of which the second reports an error, and one afterError hook
    that reports an error as well.  Its patterns are literal, so the
    matcher is string equality. *)

Module Fixture.

Import Poplar.

(** [minimatch] on patterns without wildcard characters *)
Definition literal_match (candidate pattern : string) : bool :=
  candidate =? pattern.

Definition calls_next (n : string) : hook :=
  mkHook n (fun _ c => (c, Continue VUndefined)).

Definition calls_next_with (n : string) (e : value) : hook :=
  mkHook n (fun _ c => (c, Continue e)).

Definition returns (n : string) (v : value) : hook :=
  mkHook n (fun _ c => (c, Return v)).

Definition throws (n : string) (e : value) : hook :=
  mkHook n (fun _ c => (c, Throw e)).

Definition test_method : method :=
  mkMethod "test.method" (fun c => (c, Callback VUndefined VUndefined)).

Definition apiBuilder : ApiBuilder :=
  mkApiBuilder "test" Obj.empty [("method", test_method)].

Definition hooked : Poplar :=
  afterError literal_match "test.method"
    (calls_next_with "afterError" (VError "afterError"))
    (after literal_match "test.method"
       (calls_next_with "after_method_2" (VError "afterError"))
       (after literal_match "test.method" (calls_next "after_method_1")
          (before literal_match "test.method" (calls_next "before_method_2")
             (before literal_match "test.method"
                (calls_next "before_method_1") create)))).

Definition poplar : Poplar :=
  match use literal_match apiBuilder hooked with
  | Returns p => p
  | Throws _ => hooked
  end.

Definition start : state := mkState Obj.empty [].

(** The state of the fixture once its two before hooks have run. *)
Definition before_done : state :=
  mkState Obj.empty
    [Ran "before" "before_method_1"; Ran "before" "before_method_2"].


(** A handler that reports an error together with a result. *)
Definition failing_method : method :=
  mkMethod "test.method"
    (fun c => (c, Callback (VError "handler") (VStr "partial"))).

(** Two before hooks of which the first returns a then-able that is
    fulfilled. *)
Definition promised : Poplar :=
  before literal_match "test.method" (calls_next "second")
    (before literal_match "test.method"
       (returns "first" (VThenable Fulfilled)) create).

(** [minimatch] on patterns that are literal or a literal followed by
    one [*], for candidates without a slash. *)
Definition star_match (candidate pattern : string) : bool :=
  let n := String.length pattern in
  if String.eqb (substring (n - 1) 1 pattern) "*"
  then String.prefix (substring 0 (n - 1) pattern) candidate
  else candidate =? pattern.

(** A builder that brings listeners of its own. *)
Definition listening_builder : ApiBuilder :=
  mkApiBuilder "users"
    [("before.users.*",
      SlotArr [Some (calls_next "audit"); None; Some (calls_next "auth")]);
     ("after.users.login", SlotFn (calls_next "greet"));
     ("error", SlotOther)]
    [("login", mkMethod "users.login"
                 (fun c => (c, Callback VUndefined (VStr "token"))));
     ("logout", mkMethod "users.logout"
                  (fun c => (c, NoCallback)))].

(** The fixture with a before hook that refuses. *)
Definition guarded : Poplar :=
  match use literal_match apiBuilder
          (afterError literal_match "test.method" (calls_next "report")
             (before literal_match "test.method"
                (calls_next_with "guard" (VError "Bad password!")) create))
  with
  | Returns p => p
  | Throws _ => create
  end.

(** The fixture with hooks that all continue. *)
Definition smooth : Poplar :=
  match use literal_match apiBuilder
          (after literal_match "test.method" (calls_next "after_method_1")
             (before literal_match "test.method"
                (calls_next "before_method_1") create))
  with
  | Returns p => p
  | Throws _ => create
  end.

(** Two before hooks of which the first throws. *)
Definition throwing : Poplar :=
  before literal_match "test.method" (calls_next "second")
    (before literal_match "test.method"
       (throws "first" (VError "boom")) create).

(** Two before hooks of which the first returns without a signal. *)
Definition stalling : Poplar :=
  before literal_match "test.method" (calls_next "second")
    (before literal_match "test.method"
       (returns "first" VUndefined) create).

(** The test collection with one literal before hook, under the
    wildcard matcher. *)
Definition wild : Poplar :=
  match use star_match apiBuilder
          (before star_match "test.method" (calls_next "before_method_1")
             create)
  with
  | Returns p => p
  | Throws _ => create
  end.

(** The registry that holds the listening builder alone. *)
Definition users_registry : Poplar :=
  match use literal_match listening_builder create with
  | Returns p => p
  | Throws _ => create
  end.

(** The test fixture after the listening builder was merged as well. *)
Definition both : Poplar :=
  match use literal_match listening_builder poplar with
  | Returns p => p
  | Throws _ => poplar
  end.

(** A method whose handler never calls back. *)
Definition silent_method : method :=
  mkMethod "test.method" (fun c => (c, NoCallback)).

End Fixture.

(** ** Concrete validations *)

Module Scenario.

Import Validation.

(** A two entry stand-in for the [validator] package. *)
Definition sample_Validator (validatorName : string)
    : option (list value -> completion value) :=
  if validatorName =? "isNull" then
    Some (fun args =>
            match args with
            | VNull :: _ => Returns (VBool true)
            | _ => Returns (VBool false)
            end)
  else if validatorName =? "isAny" then Some (fun _ => Returns (VBool true))
  else None.

Definition email_params : Obj.obj value := [("email", VStr "")].

Definition email_rule : accept :=
  mkAccept "email"
    (Some [("required", SVal (VObj [("message", VStr "email is required")]))]).

Definition email_errors : ValidationError :=
  [("email", [("required", VStr "email is required")])].

(** A rule whose [required] spec is [false]. *)
Definition optional_rule : accept :=
  mkAccept "email" (Some [("required", SVal (VBool false))]).

Definition name_params : Obj.obj value := [("name", VStr "x")].

(** [function() { throw null; }] as a validator *)
Definition throws_null : spec := SFun (fun _ _ => Throws VNull).

(** [function() { throw new Error('boom'); }] as a validator *)
Definition throws_error : spec := SFun (fun _ _ => Throws (VError "boom")).

(** The rule for [email] with one more validator, which throws. *)
Definition email_rule_with_check : accept :=
  mkAccept "email"
    (Some [("required", SVal (VObj [("message", VStr "email is required")]));
           ("check", throws_null)]).

(** [Validator.isNull] of the stand-in package *)
Definition isNull (args : list value) : completion value :=
  match args with
  | VNull :: _ => Returns (VBool true)
  | _ => Returns (VBool false)
  end.

End Scenario.

(** * Properties *)

(** ** Objects *)

Section ObjFacts.

Context {V : Type}.
Implicit Types (o : Obj.obj V) (k : string) (v : V).

Lemma get_set_eq o k v : Obj.get (Obj.set o k v) k = Some v.
Proof.
  induction o as [|[k' v'] o IH]; simpl.
  - now rewrite String.eqb_refl.
  - destruct (k' =? k) eqn:E; simpl.
    + now rewrite String.eqb_refl.
    + now rewrite E.
Qed.

Lemma get_set_ne o k k' v :
  k <> k' -> Obj.get (Obj.set o k v) k' = Obj.get o k'.
Proof.
  intros Hne. induction o as [|[k0 v0] o IH]; simpl.
  - destruct (String.eqb_spec k k'); [contradiction | reflexivity].
  - destruct (String.eqb_spec k0 k) as [->|Hk]; simpl.
    + destruct (String.eqb_spec k k'); [contradiction | reflexivity].
    + destruct (k0 =? k'); [reflexivity | exact IH].
Qed.

Lemma keys_set o k v k' :
  In k' (Obj.keys (Obj.set o k v)) <-> k' = k \/ In k' (Obj.keys o).
Proof.
  induction o as [|[k0 v0] o IH]; simpl.
  - intuition.
  - destruct (String.eqb_spec k0 k) as [->|Hk]; simpl.
    + intuition.
    + rewrite IH. intuition.
Qed.

Lemma NoDup_keys_set o k v :
  NoDup (Obj.keys o) -> NoDup (Obj.keys (Obj.set o k v)).
Proof.
  induction o as [|[k0 v0] o IH]; simpl; intros Hnd.
  - constructor; [intros [] | constructor].
  - inversion Hnd as [|? ? Hnin Hnd']; subst.
    destruct (String.eqb_spec k0 k) as [->|Hk]; simpl.
    + now constructor.
    + constructor; [|now apply IH].
      rewrite keys_set. intros [->|Hin]; [now apply Hk | now apply Hnin].
Qed.

Lemma get_in_keys o k : Obj.get o k <> None <-> In k (Obj.keys o).
Proof.
  induction o as [|[k0 v0] o IH]; simpl.
  - intuition.
  - unfold Obj.get in *. simpl.
    destruct (String.eqb_spec k0 k) as [->|Hk].
    + split; [now left | discriminate].
    + rewrite IH. intuition.
Qed.

Lemma get_of_NoDup o k v :
  NoDup (Obj.keys o) -> In (k, v) o -> Obj.get o k = Some v.
Proof.
  induction o as [|[k0 v0] o IH]; simpl; intros Hnd Hin; [contradiction|].
  inversion Hnd as [|? ? Hnin Hnd']; subst.
  unfold Obj.get in *. simpl.
  destruct Hin as [Heq|Hin].
  - inversion Heq; subst. now rewrite String.eqb_refl.
  - destruct (String.eqb_spec k0 k) as [->|Hk].
    + exfalso. apply Hnin. now apply (in_map fst) in Hin.
    + now apply IH.
Qed.

Lemma get_in o k v : Obj.get o k = Some v -> In (k, v) o.
Proof.
  induction o as [|[k0 v0] o IH]; unfold Obj.get; simpl; [discriminate|].
  destruct (String.eqb_spec k0 k) as [->|Hk].
  - intros [= ->]. now left.
  - intros H. right. now apply IH.
Qed.

Lemma keys_del o k k' :
  In k' (Obj.keys (Obj.del o k)) -> In k' (Obj.keys o).
Proof.
  induction o as [|[k0 v0] o IH]; simpl; [tauto|].
  destruct (k0 =? k); simpl; intuition.
Qed.

Lemma del_not_in o k :
  NoDup (Obj.keys o) -> ~ In k (Obj.keys (Obj.del o k)).
Proof.
  induction o as [|[k0 v0] o IH]; simpl; intros Hnd; [tauto|].
  inversion Hnd as [|? ? Hnin Hnd']; subst.
  destruct (String.eqb_spec k0 k) as [->|Hk]; simpl.
  - exact Hnin.
  - intros [->|Hin]; [now apply Hk | now apply IH].
Qed.

Lemma NoDup_keys_extend (o : option (Obj.obj V)) :
  NoDup (Obj.keys (Obj.extend o)).
Proof.
  destruct o as [o|]; simpl; [|constructor].
  assert (H : forall l (acc : Obj.obj V), NoDup (Obj.keys acc) ->
            NoDup (Obj.keys
              (fold_left (fun acc kv => Obj.set acc (fst kv) (snd kv))
                 l acc))).
  { induction l as [|kv l IH]; simpl; intros acc Hacc; [exact Hacc|].
    apply IH. now apply NoDup_keys_set. }
  apply H. constructor.
Qed.

End ObjFacts.

(** ** The registry and the listener tree *)

Section Registry.

Import Poplar.

Variable minimatch : string -> string -> bool.

Implicit Types (p : Poplar) (b : ApiBuilder) (M phase : string).

Lemma append_inj_l (a x y : string) : (a ++ x = a ++ y)%string -> x = y.
Proof.
  induction a as [|c a IH]; simpl; [tauto|].
  intros [= H]. now apply IH.
Qed.

Lemma format_dot_inj (n x y : string) :
  format_dot n x = format_dot n y -> x = y.
Proof.
  unfold format_dot. intros H.
  apply append_inj_l in H. now apply (append_inj_l ".") in H.
Qed.

Lemma phases_entry p n (e0 : Obj.obj (list string)) phase :
  In phase phases ->
  Obj.get
    (fold_left
       (fun e type => Obj.set e type (searchListeners minimatch p n type))
       phases e0) phase
  = Some (searchListeners minimatch p n phase).
Proof.
  simpl. intros [<-|[<-|[<-|[]]]].
  - rewrite !get_set_ne by discriminate. apply get_set_eq.
  - rewrite get_set_ne by discriminate. apply get_set_eq.
  - apply get_set_eq.
Qed.

Lemma tree_step_establishes p t M :
  fresh_at minimatch p (tree_step minimatch p t M) M.
Proof.
  unfold fresh_at, tree_step. eexists. split; [apply get_set_eq|].
  intros phase Hin. now apply phases_entry.
Qed.

Lemma tree_step_preserves p t n M :
  n <> M ->
  fresh_at minimatch p t M ->
  fresh_at minimatch p (tree_step minimatch p t n) M.
Proof.
  intros Hne (e & Hget & He). exists e. split; [|exact He].
  unfold tree_step. now rewrite get_set_ne.
Qed.

Lemma tree_fold_fresh p names t M :
  In M names \/ fresh_at minimatch p t M ->
  fresh_at minimatch p (fold_left (tree_step minimatch p) names t) M.
Proof.
  revert t. induction names as [|n names IH]; intros t H; simpl.
  - destruct H as [[]|H]. exact H.
  - apply IH.
    destruct (string_dec n M) as [->|Hne].
    + right. apply tree_step_establishes.
    + destruct H as [[Heq|Hin]|Hfresh].
      * contradiction.
      * now left.
      * right. now apply tree_step_preserves.
Qed.

Lemma analyzeListenerTree_tree p :
  _listenerTree (analyzeListenerTree minimatch p)
  = fold_left (tree_step minimatch p) (Obj.keys (_methods p)) Obj.empty.
Proof. reflexivity. Qed.

Lemma searchListeners_analyze p M phase :
  searchListeners minimatch (analyzeListenerTree minimatch p) M phase
  = searchListeners minimatch p M phase.
Proof. reflexivity. Qed.

Lemma analyzed_lookup p M phase :
  In M (Obj.keys (_methods p)) ->
  In phase phases ->
  searchListenerTree (analyzeListenerTree minimatch p) M phase
  = Some (searchListeners minimatch p M phase).
Proof.
  intros HM Hphase. unfold searchListenerTree.
  rewrite analyzeListenerTree_tree.
  destruct (tree_fold_fresh p (Obj.keys (_methods p)) Obj.empty M
              (or_introl HM)) as (e & -> & He).
  now apply He.
Qed.

(** Analysing again a registry that was just analysed changes nothing. *)
Lemma analyzeListenerTree_idempotent p :
  analyzeListenerTree minimatch (analyzeListenerTree minimatch p)
  = analyzeListenerTree minimatch p.
Proof. reflexivity. Qed.

(** C5: after [analyzeListenerTree], for a registered method name [M]
    and each of the three phases, the tree lookup yields the registered
    patterns that match ["<phase>.<M>"], in registry order, which is the
    list the live scan [searchListeners] yields; so [execHooks] uses the
    same list whether it takes it from the tree or falls back. *)
Theorem listener_tree_agrees_with_scan p M phase :
  In M (Obj.keys (_methods p)) ->
  In phase phases ->
  let p' := analyzeListenerTree minimatch p in
  let registered := Obj.keys (_events p') in
  searchListenerTree p' M phase
  = Some (spec_lookup minimatch registered phase M)
  /\ searchListeners minimatch p' M phase
     = spec_lookup minimatch registered phase M
  /\ (forall P,
        In P (spec_lookup minimatch registered phase M) <->
        In P registered /\ minimatch (phase ++ "." ++ M)%string P = true)
  /\ (forall m, fullName m = M ->
        listenerNames minimatch p' phase m
        = spec_lookup minimatch registered phase M).
Proof.
  intros HM Hphase p' registered.
  assert (Htree : searchListenerTree p' M phase
                  = Some (spec_lookup minimatch registered phase M))
    by exact (analyzed_lookup p M phase HM Hphase).
  split; [exact Htree|].
  split; [reflexivity|].
  split; [intros P; apply filter_In|].
  intros m <-. unfold listenerNames. rewrite Htree.
  destruct (spec_lookup minimatch registered phase (fullName m)) eqn:E;
    [exact E | reflexivity].
Qed.

(** Every registry built by the registration calls carries the tree
    that [analyzeListenerTree] computes from it. *)
Lemma reachable_analyzed p :
  reachable minimatch p -> analyzeListenerTree minimatch p = p.
Proof.
  intros H. destruct H as [| | | |b p p' _ Huse]; try reflexivity.
  unfold use in Huse.
  destruct (Obj.get (_apiBuilders p) (name b)); [discriminate|].
  now injection Huse as <-.
Qed.

Lemma reachable_lookup p M phase :
  reachable minimatch p ->
  In M (Obj.keys (_methods p)) ->
  In phase phases ->
  searchListenerTree p M phase = Some (searchListeners minimatch p M phase).
Proof.
  intros Hreach HM Hphase. rewrite <- (reachable_analyzed p Hreach) at 1.
  now apply analyzed_lookup.
Qed.

(** [mergeListeners] and [mergeMethods] leave the other tables alone. *)
Lemma on_tables type fn p :
  _apiBuilders (on type fn p) = _apiBuilders p
  /\ _methods (on type fn p) = _methods p.
Proof. now split. Qed.

Lemma mergeListeners_tables b p :
  _apiBuilders (mergeListeners b p) = _apiBuilders p
  /\ _methods (mergeListeners b p) = _methods p.
Proof.
  unfold mergeListeners. revert p.
  induction (builder_events b) as [|[type sl] evs IH]; intros p; simpl.
  - now split.
  - destruct (IH
      match sl with
      | SlotFn fn => on type fn p
      | SlotArr fns =>
          fold_left
            (fun self' fn =>
               match fn with
               | Some f => on type f self'
               | None => self'
               end) fns p
      | SlotOther => p
      end) as [-> ->].
    destruct sl as [fn|fns|]; [now split| |now split].
    clear IH. revert p.
    induction fns as [|[f|] fns IHf]; intros p; simpl;
      [now split| |apply IHf].
    destruct (IHf (on type f p)) as [-> ->]. now split.
Qed.

Lemma mergeMethods_fold n (l : Obj.obj method) p :
  let step := fun self (kv : string * method) =>
    mkPoplar (_apiBuilders self)
      (Obj.set (_methods self) (format_dot n (fst kv)) (snd kv))
      (_events self) (_listenerTree self) in
  _apiBuilders (fold_left step l p) = _apiBuilders p
  /\ (forall mn, ~ In mn (Obj.keys l) ->
        Obj.get (_methods (fold_left step l p)) (format_dot n mn)
        = Obj.get (_methods p) (format_dot n mn))
  /\ (NoDup (Obj.keys l) ->
      forall mn fn, In (mn, fn) l ->
        Obj.get (_methods (fold_left step l p)) (format_dot n mn) = Some fn).
Proof.
  intros step. revert p.
  induction l as [|[k v] l IH]; intros p; simpl.
  - split; [reflexivity|]. split; [reflexivity|]. intros _ mn fn [].
  - destruct (IH (step p (k, v))) as (Hb & Hkeep & Hput).
    split; [now rewrite Hb|]. split.
    + intros mn Hnin. rewrite Hkeep by tauto. simpl.
      apply get_set_ne. intros Heq. apply format_dot_inj in Heq. tauto.
    + intros Hnd mn fn Hin.
      inversion Hnd as [|? ? Hnin Hnd']; subst.
      destruct Hin as [[= <- <-]|Hin].
      * rewrite Hkeep by exact Hnin. simpl. apply get_set_eq.
      * now apply Hput.
Qed.


End Registry.

(** ** Running hooks *)

Section HookFacts.

Import Poplar.

Variable minimatch : string -> string -> bool.

Implicit Types (p : Poplar) (m : method) (s : state) (stack : list hook).

Lemma execStack_outcome when m stack (next : callback) err s :
  execStack when m stack next err s =
  match runStack when m stack err s with
  | (s', Signalled v) => next v s'
  | (s', Stalled) => s'
  end.
Proof.
  revert err s. induction stack as [|cur stack IH]; intros err s; simpl.
  - now destruct (truthy err).
  - destruct (truthy err); [reflexivity|].
    destruct (call when cur m s) as [s' sig].
    destruct sig as [e|result|e]; [apply IH| |reflexivity].
    destruct result as [| |b|n|str|items|props|msg|[|reason|]]; simpl;
      rewrite ?andb_false_r; reflexivity.
Qed.

Lemma execHooks_outcome p when m s (next : callback) :
  execHooks minimatch p when m s next =
  match runHooks minimatch p when m s with
  | (s', Signalled v) => next v s'
  | (s', Stalled) => s'
  end.
Proof. apply execStack_outcome. Qed.

Lemma call_trace when cur m s s' sig :
  call when cur m s = (s', sig) ->
  trace s' = trace s ++ [Ran when (hname cur)].
Proof.
  unfold call. simpl.
  destruct (hbody cur m (ctx s)) as [c sg]. now intros [= <- _].
Qed.

Lemma runStack_falsy when m stack err s :
  truthy err = false ->
  runStack when m stack err s = runStack when m stack VUndefined s.
Proof. intros H. destruct stack; simpl; now rewrite H. Qed.

(** The hooks that a chain calls are an initial segment of its stack,
    called in the order of the stack. *)
Lemma runStack_prefix when m stack err s s' o :
  runStack when m stack err s = (s', o) ->
  exists done rest,
    stack = done ++ rest /\ trace s' = trace s ++ ran when done.
Proof.
  revert err s. induction stack as [|cur stack IH]; intros err s; simpl.
  - intros H. exists [], []. split; [reflexivity|].
    destruct (truthy err); inversion H; subst; simpl;
      now rewrite app_nil_r.
  - destruct (truthy err).
    { intros [= <- _]. exists [], (cur :: stack). simpl.
      now rewrite app_nil_r. }
    destruct (call when cur m s) as [s1 sig] eqn:Hcall.
    apply call_trace in Hcall.
    assert (Hone : forall o', (s1, o') = (s', o) ->
              exists done rest, cur :: stack = done ++ rest /\
                trace s' = trace s ++ ran when done).
    { intros o' [= <- _]. exists [cur], stack. now split. }
    destruct sig as [e|result|e]; [| |apply Hone].
    2: { destruct result as [| | | | | | | |[|reason|]]; apply Hone. }
    intros H. apply IH in H as (done & rest & -> & Ht).
    exists (cur :: done), rest. split; [reflexivity|].
    rewrite Ht, Hcall. simpl. now rewrite <- app_assoc.
Qed.

Lemma proceeds_trace when m pre s s1 :
  proceeds when m pre s = Some s1 -> trace s1 = trace s ++ ran when pre.
Proof.
  revert s. induction pre as [|cur pre IH]; intros s; simpl.
  - intros [= ->]. now rewrite app_nil_r.
  - destruct (call when cur m s) as [s' sig] eqn:Hcall.
    apply call_trace in Hcall.
    destruct sig as [e| |]; try discriminate.
    destruct (truthy e); [discriminate|].
    intros H. apply IH in H. rewrite H, Hcall.
    now rewrite <- app_assoc.
Qed.

Lemma runStack_proceeds when m pre rest err s s1 :
  truthy err = false ->
  proceeds when m pre s = Some s1 ->
  runStack when m (pre ++ rest) err s = runStack when m rest VUndefined s1.
Proof.
  revert err s. induction pre as [|cur pre IH]; intros err s Herr; simpl.
  - intros [= ->]. now apply runStack_falsy.
  - rewrite Herr.
    destruct (call when cur m s) as [s' sig].
    destruct sig as [e| |]; try discriminate.
    destruct (truthy e) eqn:He; [discriminate|].
    now apply IH.
Qed.

Lemma hookStack_flat_map p when m :
  hookStack minimatch p when m =
  flat_map (listeners p) (listenerNames minimatch p when m).
Proof.
  unfold hookStack.
  assert (H : forall names acc,
            fold_left (fun stack n => stack ++ listeners p n) names acc =
            acc ++ flat_map (listeners p) names).
  { induction names as [|n names IH]; intros acc; simpl.
    - now rewrite app_nil_r.
    - now rewrite IH, app_assoc. }
  apply (H _ []).
Qed.

Lemma listeners_on type fn p t :
  listeners (on type fn p) t =
  if type =? t then listeners p t ++ [fn] else listeners p t.
Proof.
  unfold listeners at 1, on. simpl.
  destruct (String.eqb_spec type t) as [->|Hne].
  - now rewrite get_set_eq.
  - now rewrite get_set_ne.
Qed.




End HookFacts.

(** ** The hook execution engine and the orchestrator *)

Section Dispatch.

Import Poplar.

Variable minimatch : string -> string -> bool.

Implicit Types (p : Poplar) (m : method) (s : state) (cb : callback).

(** What the head of the stack does to the chain, signal by signal. *)
Lemma execStack_head when m cur stack (next : callback) err s s' sig :
  truthy err = false ->
  call when cur m s = (s', sig) ->
  execStack when m (cur :: stack) next err s =
  match sig with
  | Continue e => execStack when m stack next e s'
  | Return (VThenable Fulfilled) => next VUndefined s'
  | Return (VThenable (Rejected reason)) => next reason s'
  | Return _ => s'
  | Throw e => next e s'
  end.
Proof.
  intros Herr Hcall. simpl. rewrite Herr, Hcall.
  destruct sig as [e|result|e]; try reflexivity.
  destruct result as [| |b|n|str|items|props|msg|[|reason|]]; simpl;
    rewrite ?andb_false_r; reflexivity.
Qed.

(** C4: [execHooks] runs the stack built from the matched patterns in
    pattern order and, within a pattern, in registration order; the
    hooks it calls are an initial segment of that stack, called in
    order; when the hooks before [cur] have all continued without an
    error and [cur] passes a truthy error to its continuation, [next]
    receives that error in the state [cur] left and no later hook has
    run; when every hook of the stack continues without an error,
    [next] is called without one. *)
Theorem execHooks_sequential_short_circuit p when m s (next : callback) :
  let stack := hookStack minimatch p when m in
  stack = flat_map (listeners p) (listenerNames minimatch p when m)
  /\ (forall type fn t,
        listeners (on type fn p) t =
        if type =? t then listeners p t ++ [fn] else listeners p t)
  /\ (forall s' o,
        runHooks minimatch p when m s = (s', o) ->
        exists done rest,
          stack = done ++ rest /\ trace s' = trace s ++ ran when done)
  /\ (forall pre cur post s1 s2 e,
        stack = pre ++ cur :: post ->
        proceeds when m pre s = Some s1 ->
        call when cur m s1 = (s2, Continue e) ->
        truthy e = true ->
        execHooks minimatch p when m s next = next e s2
        /\ trace s2 = trace s ++ ran when (pre ++ [cur]))
  /\ (forall s1,
        proceeds when m stack s = Some s1 ->
        execHooks minimatch p when m s next = next VUndefined s1
        /\ trace s1 = trace s ++ ran when stack).
Proof.
  intros stack. split; [apply hookStack_flat_map|].
  split; [intros; apply listeners_on|].
  split; [intros s' o H; now apply runStack_prefix in H|].
  split.
  - intros pre cur post s1 s2 e Hstack Hpre Hcall He.
    rewrite execHooks_outcome. unfold runHooks. fold stack.
    rewrite Hstack.
    rewrite (runStack_proceeds when m pre _ VUndefined s s1 eq_refl Hpre).
    simpl. rewrite Hcall.
    assert (Hend : runStack when m post e s2 = (s2, Signalled e))
      by (destruct post; simpl; now rewrite He).
    rewrite Hend. split; [reflexivity|].
    apply call_trace in Hcall. apply proceeds_trace in Hpre.
    rewrite Hcall, Hpre. unfold ran. now rewrite map_app, <- app_assoc.
  - intros s1 Hall.
    rewrite execHooks_outcome. unfold runHooks. fold stack.
    rewrite <- (app_nil_r stack) at 1.
    rewrite (runStack_proceeds when m stack [] VUndefined s s1 eq_refl Hall).
    simpl.
    split; [reflexivity | exact (proceeds_trace when m _ _ _ Hall)].
Qed.

(** The orchestrator once the before chain has succeeded and the
    handler has called back. *)
Lemma invoke_after_reply p m s cb s1 v c2 err result :
  runHooks minimatch p "before" m s = (s1, Signalled v) ->
  truthy v = false ->
  invoke_body m (ctx s1) = (c2, Callback err result) ->
  invokeMethodInContext minimatch p m s cb =
  let s3 :=
    assign "result" result
      (mkState c2 (trace s1 ++ [Invoked (fullName m)])) in
  if truthy err then cb err s3
  else
    execHooks minimatch p "after" m s3
      (fun e s4 =>
         if truthy e
         then execHooks minimatch p "afterError" m (assign "error" e s4)
                (fun hookErr => cb (js_or hookErr e))
         else cb VUndefined s4).
Proof.
  intros Hbefore Hv Hreply. unfold invokeMethodInContext.
  rewrite execHooks_outcome, Hbefore, Hv.
  unfold invoke. simpl. now rewrite Hreply.
Qed.

Lemma before_trace p m s s1 o :
  runHooks minimatch p "before" m s = (s1, o) ->
  exists done, trace s1 = trace s ++ ran "before" done.
Proof.
  intros H. apply runStack_prefix in H as (done & _ & _ & Ht).
  now exists done.
Qed.


(** C1: when the before chain ends without an error and the handler
    calls back with a truthy error, the final callback is applied to
    that error in the state the handler left (with the result slot
    assigned); the events up to that point are the before hooks and
    the invocation, so no afterError hook has run. *)
Theorem handler_error_bypasses_afterError p m s cb s1 v c2 err result :
  runHooks minimatch p "before" m s = (s1, Signalled v) ->
  truthy v = false ->
  invoke_body m (ctx s1) = (c2, Callback err result) ->
  truthy err = true ->
  let s3 :=
    assign "result" result
      (mkState c2 (trace s1 ++ [Invoked (fullName m)])) in
  invokeMethodInContext minimatch p m s cb = cb err s3
  /\ (exists done,
        trace s3 = trace s ++ ran "before" done ++ [Invoked (fullName m)])
  /\ (forall n, In (Ran "afterError" n) (trace s3) ->
                In (Ran "afterError" n) (trace s)).
Proof.
  intros Hbefore Hv Hreply Herr s3.
  split.
  { rewrite (invoke_after_reply _ _ _ _ _ _ _ _ _ Hbefore Hv Hreply).
    simpl. now rewrite Herr. }
  destruct (before_trace _ _ _ _ _ Hbefore) as (done & Ht).
  split.
  { exists done. simpl. now rewrite Ht, <- app_assoc. }
  intros n. simpl. rewrite Ht, !in_app_iff.
  intros [[Hin|Hin]|Hin]; [exact Hin| |].
  - unfold ran in Hin. apply in_map_iff in Hin as (h & Hh & _).
    discriminate.
  - destruct Hin as [Hin|[]]. discriminate.
Qed.

(** C10: whenever the handler calls back, with or without an error,
    the result slot of the context holds the value it passed before
    the error is looked at; with a truthy error the final callback
    receives the error in a context that carries that result. *)
Theorem result_slot_assigned_before_error_check
    p m s cb s1 v c2 err result :
  runHooks minimatch p "before" m s = (s1, Signalled v) ->
  truthy v = false ->
  invoke_body m (ctx s1) = (c2, Callback err result) ->
  let s3 :=
    assign "result" result
      (mkState c2 (trace s1 ++ [Invoked (fullName m)])) in
  Obj.get (ctx s3) "result" = Some result
  /\ invokeMethodInContext minimatch p m s cb =
     (if truthy err then cb err s3
      else
        execHooks minimatch p "after" m s3
          (fun e s4 =>
             if truthy e
             then execHooks minimatch p "afterError" m
                    (assign "error" e s4)
                    (fun hookErr => cb (js_or hookErr e))
             else cb VUndefined s4)).
Proof.
  intros Hbefore Hv Hreply s3. split.
  - apply get_set_eq.
  - exact (invoke_after_reply _ _ _ _ _ _ _ _ _ Hbefore Hv Hreply).
Qed.



End Dispatch.

(** ** The test fixture, run *)

Section FixtureRuns.

Import Poplar Fixture.

(** What the test suite expects of [searchListeners] and of
    [searchListenerTree]. *)
Example searchListeners_fixture :
  map (searchListeners literal_match poplar (fullName test_method)) phases
  = [["before.test.method"]; ["after.test.method"];
     ["afterError.test.method"]].
Proof. reflexivity. Qed.

Example searchListenerTree_fixture :
  map (searchListenerTree poplar (fullName test_method)) phases
  = [Some ["before.test.method"]; Some ["after.test.method"];
     Some ["afterError.test.method"]].
Proof. reflexivity. Qed.

(** The order the test suite expects of [invokeMethodInContext]. *)
Example invokeMethodInContext_fixture :
  trace (invokeMethodInContext literal_match poplar test_method start
           observe)
  = [Ran "before" "before_method_1"; Ran "before" "before_method_2";
     Invoked "test.method";
     Ran "after" "after_method_1"; Ran "after" "after_method_2";
     Ran "afterError" "afterError"; Final (VError "afterError")].
Proof. reflexivity. Qed.

Lemma execHooks_sequential_short_circuit_witness :
  trace (execHooks literal_match poplar "after" test_method start observe)
  = [Ran "after" "after_method_1"; Ran "after" "after_method_2";
     Final (VError "afterError")]
  /\ trace (execHooks literal_match poplar "before" test_method start
              observe)
     = [Ran "before" "before_method_1"; Ran "before" "before_method_2";
        Final VUndefined].
Proof.
  split.
  - destruct (execHooks_sequential_short_circuit literal_match poplar
                "after" test_method start observe)
      as (_ & _ & _ & Habort & _).
    destruct (Habort [calls_next "after_method_1"]
                (calls_next_with "after_method_2" (VError "afterError"))
                []
                (mkState Obj.empty [Ran "after" "after_method_1"])
                (mkState Obj.empty
                   [Ran "after" "after_method_1";
                    Ran "after" "after_method_2"])
                (VError "afterError")
                eq_refl eq_refl eq_refl eq_refl) as [Hrun _].
    rewrite Hrun. reflexivity.
  - destruct (execHooks_sequential_short_circuit literal_match poplar
                "before" test_method start observe)
      as (_ & _ & _ & _ & Hall).
    destruct (Hall before_done eq_refl) as [Hrun _].
    rewrite Hrun. reflexivity.
Defined.

Lemma handler_error_bypasses_afterError_witness :
  trace (invokeMethodInContext literal_match poplar failing_method start
           observe)
  = [Ran "before" "before_method_1"; Ran "before" "before_method_2";
     Invoked "test.method"; Final (VError "handler")].
Proof.
  destruct (handler_error_bypasses_afterError literal_match poplar
              failing_method start observe before_done VUndefined
              Obj.empty (VError "handler") (VStr "partial")
              eq_refl eq_refl eq_refl eq_refl) as [Hrun _].
  rewrite Hrun. reflexivity.
Defined.

Lemma result_slot_assigned_before_error_check_witness :
  Obj.get
    (ctx (invokeMethodInContext literal_match poplar failing_method start
            observe)) "result"
  = Some (VStr "partial").
Proof.
  destruct (result_slot_assigned_before_error_check literal_match poplar
              failing_method start observe before_done VUndefined
              Obj.empty (VError "handler") (VStr "partial")
              eq_refl eq_refl eq_refl) as [_ Hrun].
  rewrite Hrun. reflexivity.
Defined.


(** C2 (the code departs from the claim): the stack holds two hooks;
    the first returns a then-able that is fulfilled; the second is
    never called and [next] is called without an error. *)
Theorem fulfilled_thenable_ends_the_chain :
  map hname (hookStack literal_match promised "before" test_method)
  = ["first"; "second"]
  /\ trace (execHooks literal_match promised "before" test_method start
              observe)
     = [Ran "before" "first"; Final VUndefined].
Proof. split; reflexivity. Qed.

End FixtureRuns.

(** ** The error collector *)

Section CollectorFacts.

Import Validation.

Implicit Types (e : ValidationError) (n v : string) (msg : value).

Lemma in_set {V : Type} (o : Obj.obj V) k x k' x' :
  In (k', x') (Obj.set o k x) -> (k' = k /\ x' = x) \/ In (k', x') o.
Proof.
  induction o as [|[k0 x0] o IH]; simpl.
  - intros [[= <- <-]|[]]. now left.
  - destruct (k0 =? k); simpl.
    + intros [[= <- <-]|H]; [now left | right; now right].
    + intros [H|H]; [right; now left|].
      destruct (IH H) as [H'|H']; [now left | right; now right].
Qed.

Lemma set_not_nil {V : Type} (o : Obj.obj V) k x : Obj.set o k x <> [].
Proof.
  destruct o as [|[k0 x0] o]; simpl; [|destruct (k0 =? k)]; discriminate.
Qed.

Lemma well_formed_add n v msg e :
  well_formed e -> well_formed (add n v msg e).
Proof.
  intros [Hnd Hobj]. unfold add. split; [now apply NoDup_keys_set|].
  intros n' obj' Hin. apply in_set in Hin as [[-> ->]|Hin];
    [|exact (Hobj _ _ Hin)].
  split; [apply set_not_nil|]. apply NoDup_keys_set.
  destruct (Obj.get e n) as [obj|] eqn:Hget; [|constructor].
  apply get_in in Hget. now destruct (Hobj _ _ Hget).
Qed.

Lemma has_pair_add n v msg e n' v' :
  has_pair (add n v msg e) n' v' <-> (n' = n /\ v' = v) \/ has_pair e n' v'.
Proof.
  unfold has_pair, add.
  destruct (string_dec n n') as [<-|Hne].
  - rewrite get_set_eq. split.
    + intros (obj & [= <-] & Hv).
      apply get_in_keys, keys_set in Hv as [->|Hv]; [now left|].
      right. destruct (Obj.get e n) as [obj|]; [|destruct Hv].
      exists obj. split; [reflexivity | now apply get_in_keys].
    + intros H. eexists. split; [reflexivity|].
      apply get_in_keys, keys_set.
      destruct H as [[_ ->]|(obj & -> & Hv)]; [now left|].
      right. now apply get_in_keys.
  - rewrite get_set_ne by exact Hne. split.
    + intros H. now right.
    + intros [[-> _]|H]; [contradiction | exact H].
Qed.

Lemma replay_snoc {C : Type} (add_ : string -> string -> value -> C -> C)
    (c0 : C) l n v msg :
  replay add_ c0 (record n v msg l) = add_ n v msg (replay add_ c0 l).
Proof. unfold replay, record. now rewrite fold_left_app. Qed.

Lemma replay_add_facts (l : list failure) :
  well_formed (replay add new_ValidationError l)
  /\ forall n v,
       has_pair (replay add new_ValidationError l) n v <->
       exists msg, In (n, v, msg) l.
Proof.
  induction l as [|[[n0 v0] msg0] l IH] using rev_ind.
  - split.
    + split; [constructor | intros n obj []].
    + intros n v. split; [intros (obj & [=] & _) | intros (msg & [])].
  - change (l ++ [(n0, v0, msg0)]) with (record n0 v0 msg0 l).
    rewrite replay_snoc. destruct IH as [Hwf Hpairs].
    split; [now apply well_formed_add|].
    intros n v. rewrite has_pair_add, Hpairs. unfold record. split.
    + intros [[-> ->]|(msg & Hin)].
      * exists msg0. apply in_or_app. right. now left.
      * exists msg. apply in_or_app. now left.
    + intros (msg & Hin). apply in_app_or in Hin as [Hin|[[= -> -> _]|[]]].
      * right. now exists msg.
      * now left.
Qed.




Lemma flatten_triples e : flatten e = map text (triples e).
Proof.
  unfold flatten, triples.
  induction e as [|[n obj] e IH]; simpl; [reflexivity|].
  rewrite map_app, <- IH. f_equal.
  rewrite map_map. reflexivity.
Qed.




End CollectorFacts.

(** ** Validate *)

Section ValidateFacts.

Import Validation.

Variable isEmpty : value -> bool.
Variable Validator : string -> option (list value -> completion value).
Variable lodash_flatten : list value -> list value.

Implicit Types (params : Obj.obj value) (l : list failure) (a : accept).

Section Agreement.

Variable C : Type.
Variable add_ : string -> string -> value -> C -> C.
Variable c0 : C.

Lemma agree_try_function fn n vn val params c l :
  c = replay add_ c0 l ->
  agree add_ c0 (try_function C add_ fn n vn val params c)
    (try_function (list failure) record fn n vn val params l).
Proof.
  intros ->. unfold try_function.
  destruct (fn val params) as [r|ex]; simpl.
  - destruct (truthy r); simpl; [symmetry; apply replay_snoc | reflexivity].
  - unfold message_of. destruct (nullish ex); simpl; reflexivity.
Qed.

Lemma agree_check_required n val params validators c l :
  c = replay add_ c0 l ->
  agree add_ c0 (check_required C add_ n val params validators c)
    (check_required (list failure) record n val params validators l).
Proof.
  intros Hc. unfold check_required.
  destruct (Obj.get validators "required") as [[fn|required]|].
  - now apply agree_try_function.
  - subst c. destruct (truthy required); simpl;
      [symmetry; apply replay_snoc | reflexivity].
  - exact Hc.
Qed.

Lemma agree_check_validator n val params kv c l :
  c = replay add_ c0 l ->
  agree add_ c0
    (check_validator Validator lodash_flatten C add_ n val params kv c)
    (check_validator Validator lodash_flatten (list failure) record n val
       params kv l).
Proof.
  intros Hc. unfold check_validator.
  destruct (snd kv) as [fn|opts]; [now apply agree_try_function|].
  destruct (negb (truthy (js_or opts (VObj [])))); [exact Hc|].
  destruct (Validator (fst kv)) as [validator|]; [|exact Hc].
  destruct (validator _) as [ok|ex]; simpl; [|reflexivity].
  subst c. destruct (truthy ok); [reflexivity|].
  symmetry. apply replay_snoc.
Qed.

Lemma agree_each {A : Type} (f : A -> C -> completion C)
    (g : A -> list failure -> completion (list failure)) (xs : list A) :
  (forall x c l, c = replay add_ c0 l -> agree add_ c0 (f x c) (g x l)) ->
  forall c l, c = replay add_ c0 l ->
    agree add_ c0 (each xs f c) (each xs g l).
Proof.
  intros Hstep. induction xs as [|x xs IH]; intros c l Hc; simpl.
  - exact Hc.
  - specialize (Hstep x c l Hc).
    destruct (f x c) as [c'|ex], (g x l) as [l'|ex']; simpl in *;
      try contradiction; [now apply IH | exact Hstep].
Qed.

Lemma agree_Validate_with (oparams : option (Obj.obj value))
    (oaccepts : option (list accept)) :
  agree add_ c0
    (Validate_with isEmpty Validator lodash_flatten C add_ c0 oparams oaccepts)
    (Validate_with isEmpty Validator lodash_flatten (list failure) record []
       oparams oaccepts).
Proof.
  unfold Validate_with. apply agree_each; [|reflexivity].
  intros a c l Hc. unfold validate_accept.
  destruct (isEmpty _).
  - now apply agree_check_required.
  - apply agree_each; [|exact Hc].
    intros kv c' l' Hc'. now apply agree_check_validator.
Qed.

End Agreement.

(** The collector [Validate] returns is the replay of the recorded
    failures. *)
Lemma Validate_replay (oparams : option (Obj.obj value))
    (oaccepts : option (list accept)) e :
  Validate isEmpty Validator lodash_flatten oparams oaccepts = Returns e ->
  exists l,
    failures isEmpty Validator lodash_flatten oparams oaccepts = Returns l
    /\ e = replay add new_ValidationError l.
Proof.
  intros H.
  pose proof (agree_Validate_with ValidationError add new_ValidationError
                oparams oaccepts) as Hag.
  unfold Validate in H. unfold failures. rewrite H in Hag.
  destruct (Validate_with _ _ _ (list failure) _ _ _ _) as [l|ex];
    [|contradiction].
  now exists l.
Qed.

(** *** What one step records *)

Lemma log_try_function fn n vn val params l l' :
  try_function (list failure) record fn n vn val params l = Returns l' ->
  l' = l
  \/ exists r, fn val params = Returns r /\ truthy r = true
               /\ l' = l ++ [(n, vn, r)].
Proof.
  unfold try_function. destruct (fn val params) as [r|ex].
  - destruct (truthy r) eqn:Hr; intros [= <-]; [right | now left].
    now exists r.
  - unfold message_of. destruct (nullish ex); simpl; [discriminate|].
    intros [= <-]. now left.
Qed.

Lemma log_check_required n val params validators l l' :
  check_required (list failure) record n val params validators l
  = Returns l' ->
  l' = l \/ exists msg, l' = l ++ [(n, "required", msg)].
Proof.
  unfold check_required.
  destruct (Obj.get validators "required") as [[fn|required]|].
  - intros H. apply log_try_function in H as [->|(r & _ & _ & ->)];
      [now left | right; now exists r].
  - destruct (truthy required); intros [= <-]; [right | now left].
    now eexists.
  - intros [= <-]. now left.
Qed.

Lemma log_check_validator n val params kv l l' :
  check_validator Validator lodash_flatten (list failure) record n val
    params kv l = Returns l' ->
  l' = l \/ exists msg, l' = l ++ [(n, fst kv, msg)].
Proof.
  unfold check_validator. destruct (snd kv) as [fn|opts].
  - intros H. apply log_try_function in H as [->|(r & _ & _ & ->)];
      [now left | right; now exists r].
  - destruct (negb _); [intros [= <-]; now left|].
    destruct (Validator (fst kv)) as [validator|];
      [|intros [= <-]; now left].
    destruct (validator _) as [ok|ex]; simpl; [|discriminate].
    destruct (truthy ok); intros [= <-]; [now left | right].
    now eexists.
Qed.

Lemma log_each {A : Type}
    (g : A -> list failure -> completion (list failure))
    (Q : failure -> Prop) (xs : list A) :
  (forall x l l', In x xs -> g x l = Returns l' ->
     exists new, l' = l ++ new /\ Forall Q new) ->
  forall l l', each xs g l = Returns l' ->
    exists new, l' = l ++ new /\ Forall Q new.
Proof.
  induction xs as [|x xs IH]; intros Hstep l l'; simpl.
  - intros [= <-]. exists []. now rewrite app_nil_r.
  - destruct (g x l) as [l1|ex] eqn:Hg; simpl; [|discriminate].
    intros Hrest.
    destruct (Hstep x l l1 (or_introl eq_refl) Hg) as (new1 & -> & Hq1).
    apply IH in Hrest as (new2 & -> & Hq2).
    + exists (new1 ++ new2). rewrite app_assoc. split; [reflexivity|].
      now apply Forall_app.
    + intros y m m' Hin. apply Hstep. now right.
Qed.

Lemma log_validate_accept params a l l' :
  validate_accept isEmpty Validator lodash_flatten (list failure) record
    params a l = Returns l' ->
  exists new, l' = l ++ new /\ Forall (required_iff_empty isEmpty params) new.
Proof.
  unfold validate_accept.
  destruct (isEmpty (param params (arg a))) eqn:Hemp.
  - intros H. apply log_check_required in H as [->|(msg & ->)].
    + exists []. now rewrite app_nil_r.
    + eexists. split; [reflexivity|]. constructor; [|constructor].
      unfold required_iff_empty. simpl. now rewrite Hemp.
  - apply log_each. intros kv m m' Hin H.
    apply log_check_validator in H as [->|(msg & ->)].
    + exists []. now rewrite app_nil_r.
    + eexists. split; [reflexivity|]. constructor; [|constructor].
      unfold required_iff_empty. simpl. rewrite Hemp.
      intros Heq. apply (in_map fst) in Hin. rewrite Heq in Hin.
      revert Hin. apply del_not_in, NoDup_keys_extend.
Qed.

Lemma log_failures (oparams : option (Obj.obj value))
    (oaccepts : option (list accept)) l :
  failures isEmpty Validator lodash_flatten oparams oaccepts = Returns l ->
  Forall
    (required_iff_empty isEmpty
       match oparams with Some o => o | None => Obj.empty end) l.
Proof.
  unfold failures, Validate_with. intros H.
  apply (log_each _ (required_iff_empty isEmpty
           match oparams with Some o => o | None => Obj.empty end))
    in H as (new & -> & Hq); [exact Hq|].
  intros a m m' _. apply log_validate_accept.
Qed.

(** A rule whose [required] spec reports a failure on an empty value
    leaves its failure in the final list. *)
Lemma required_is_recorded params accepts a l :
  failures isEmpty Validator lodash_flatten (Some params) (Some accepts)
  = Returns l ->
  In a accepts ->
  isEmpty (param params (arg a)) = true ->
  required_fails params a = true ->
  exists msg, In (arg a, "required", msg) l.
Proof.
  unfold failures, Validate_with.
  generalize (@nil failure) as l0. revert l.
  induction accepts as [|x xs IH]; intros l l0 Hrun Hin Hemp Hreq;
    [destruct Hin|].
  simpl in Hrun.
  destruct (validate_accept _ _ _ _ _ params x l0) as [l1|ex] eqn:Hx;
    simpl in Hrun; [|discriminate].
  destruct Hin as [->|Hin]; [|now apply (IH l l1)].
  assert (Hrec : exists msg, In (arg a, "required", msg) l1).
  { revert Hx. unfold validate_accept, check_required. rewrite Hemp.
    revert Hreq. unfold required_fails.
    destruct (Obj.get _ "required") as [[fn|required]|]; [| |discriminate].
    - unfold try_function.
      destruct (fn _ params) as [r|ex]; [|discriminate].
      intros -> [= <-]. exists r. apply in_or_app. right. now left.
    - intros -> [= <-]. eexists. apply in_or_app. right. now left. }
  destruct Hrec as (msg & Hmsg). exists msg.
  apply (log_each _ (fun _ => True)) in Hrun as (new & -> & _).
  - apply in_or_app. now left.
  - intros y m m' _ Hy. apply log_validate_accept in Hy as (new & -> & _).
    exists new. split; [reflexivity|]. apply Forall_forall. tauto.
Qed.

(** Failures under [required] come from a rule whose [required] spec
    reports a failure. *)
Lemma required_has_source params accepts l n msg :
  failures isEmpty Validator lodash_flatten (Some params) (Some accepts)
  = Returns l ->
  In (n, "required", msg) l ->
  exists a, In a accepts /\ arg a = n /\ required_fails params a = true.
Proof.
  unfold failures, Validate_with. intros Hrun Hin.
  apply (log_each _
           (fun f => snd (fst f) = "required" ->
              exists a, In a accepts /\ arg a = fst (fst f)
                        /\ required_fails params a = true))
    in Hrun as (new & -> & Hq).
  - simpl in Hin. rewrite Forall_forall in Hq. now apply (Hq _ Hin).
  - intros a m m' Ha. unfold validate_accept.
    destruct (isEmpty (param params (arg a))) eqn:Hemp.
    + unfold check_required.
      destruct (Obj.get (Obj.extend (validates a)) "required")
        as [[fn|required]|] eqn:Hg.
      * unfold try_function.
        destruct (fn (param params (arg a)) params) as [r|ex] eqn:Hfn.
        -- destruct (truthy r) eqn:Hr; intros [= <-].
           ++ eexists. split; [reflexivity|]. constructor; [|constructor].
              intros _. exists a. unfold required_fails.
              rewrite Hg, Hfn. auto.
           ++ exists []. now rewrite app_nil_r.
        -- unfold message_of. destruct (nullish ex); [discriminate|].
           intros [= <-]. exists []. now rewrite app_nil_r.
      * destruct (truthy required) eqn:Hr; intros [= <-].
        -- eexists. split; [reflexivity|]. constructor; [|constructor].
           intros _. exists a. unfold required_fails. rewrite Hg. auto.
        -- exists []. now rewrite app_nil_r.
      * intros [= <-]. exists []. now rewrite app_nil_r.
    + intros H.
      assert (Hlog := log_validate_accept params a m m').
      unfold validate_accept in Hlog. rewrite Hemp in Hlog.
      destruct (Hlog H) as (new & -> & Hq).
      exists new. split; [reflexivity|].
      rewrite Forall_forall in *. intros [[n0 v0] msg0] Hf Hv.
      specialize (Hq _ Hf). unfold required_iff_empty in Hq.
      simpl in *. subst v0.
      assert (Hn0 : n0 = arg a).
      { apply (log_each _ (fun f => fst (fst f) = arg a)) in H
          as (new' & Heq & Hq').
        - apply app_inv_head in Heq. subst new'.
          rewrite Forall_forall in Hq'. exact (Hq' _ Hf).
        - intros kv k k' _ Hk.
          apply log_check_validator in Hk as [->|(x & ->)].
          + exists []. now rewrite app_nil_r.
          + eexists. split; [reflexivity|]. now repeat constructor. }
      subst n0. rewrite Hemp in Hq. now contradiction Hq.
Qed.

(** A function valued validator that throws a value other than
    [undefined] and [null] records nothing and lets the iteration go
    on with the collector as it was. *)
Lemma thrown_error_is_contained (C : Type)
    (add_ : string -> string -> value -> C -> C) fn n vn val params
    (c : C) ex :
  fn val params = Throws ex ->
  nullish ex = false ->
  try_function C add_ fn n vn val params c = Returns c.
Proof.
  intros Hfn Hex. unfold try_function, message_of. now rewrite Hfn, Hex.
Qed.

(** C6 (as amended): for a collector returned by [Validate], a parameter
    whose value is empty has at most the single entry [required], and
    has exactly that entry when and only when one of its rules carries a
    [required] spec that reports a failure (a truthy value that is not a
    function, or a function returning a truthy value); a parameter
    whose value is not empty never has an entry under [required]. *)
Theorem required_recorded_only_for_empty_values params accepts e n :
  Validate isEmpty Validator lodash_flatten (Some params) (Some accepts)
  = Returns e ->
  (isEmpty (param params n) = true ->
     (forall obj, Obj.get e n = Some obj ->
        exists msg, obj = [("required", msg)])
     /\ ((exists a, In a accepts /\ arg a = n
                    /\ required_fails params a = true) <->
         exists msg, Obj.get e n = Some [("required", msg)]))
  /\ (isEmpty (param params n) = false ->
      forall obj, Obj.get e n = Some obj -> Obj.get obj "required" = None).
Proof.
  intros Hrun.
  destruct (Validate_replay _ _ _ Hrun) as (l & Hlog & ->).
  destruct (replay_add_facts l) as [[Hnd Hobj] Hpairs].
  pose proof (log_failures _ _ _ Hlog) as Hq. simpl in Hq.
  rewrite Forall_forall in Hq.
  set (e := replay add new_ValidationError l) in *.
  assert (Hkey : forall obj v, Obj.get e n = Some obj ->
            In v (Obj.keys obj) -> exists msg, In (n, v, msg) l).
  { intros obj v Hget Hv. apply Hpairs. exists obj.
    split; [exact Hget | now apply get_in_keys]. }
  split.
  - intros Hemp.
    assert (Hsingle : forall obj, Obj.get e n = Some obj ->
              exists msg, obj = [("required", msg)]).
    { intros obj Hget.
      assert (Hreq : forall v, In v (Obj.keys obj) -> v = "required").
      { intros v Hv. destruct (Hkey obj v Hget Hv) as (msg & Hin).
        specialize (Hq _ Hin). unfold required_iff_empty in Hq.
        simpl in Hq. now rewrite Hemp in Hq. }
      destruct (Hobj n obj (get_in _ _ _ Hget)) as [Hne Hk].
      destruct obj as [|[v1 m1] [|[v2 m2] obj]]; [now contradiction Hne| |].
      - exists m1. now rewrite (Hreq v1 (or_introl eq_refl)).
      - exfalso. simpl in Hk. inversion Hk as [|? ? Hnin _]; subst.
        apply Hnin. left.
        rewrite (Hreq v1), (Hreq v2); simpl; auto. }
    split; [exact Hsingle|]. split.
    + intros (a & Ha & <- & Hreq).
      destruct (required_is_recorded _ _ _ _ Hlog Ha Hemp Hreq)
        as (msg & Hin).
      assert (Hp : has_pair e (arg a) "required")
        by (apply Hpairs; now exists msg).
      destruct Hp as (obj & Hget & _).
      destruct (Hsingle obj Hget) as (m & ->). now exists m.
    + intros (msg & Hget).
      destruct (Hkey _ "required" Hget (or_introl eq_refl)) as (m & Hin).
      exact (required_has_source _ _ _ _ _ Hlog Hin).
  - intros Hemp obj Hget.
    destruct (Obj.get obj "required") as [m|] eqn:Hr; [|reflexivity].
    exfalso.
    assert (Hv : In "required" (Obj.keys obj))
      by (apply get_in_keys; now rewrite Hr).
    destruct (Hkey obj _ Hget Hv) as (msg & Hin).
    specialize (Hq _ Hin). unfold required_iff_empty in Hq.
    simpl in Hq. rewrite Hemp in Hq. now apply Hq.
Qed.


End ValidateFacts.

(** ** The registry and the validation, run *)

Section ConcreteRuns.

Import Poplar Fixture Validation Scenario.

Lemma listener_tree_agrees_with_scan_witness :
  searchListenerTree (analyzeListenerTree literal_match poplar)
    "test.method" "afterError"
  = Some ["afterError.test.method"].
Proof.
  destruct (listener_tree_agrees_with_scan literal_match poplar
              "test.method" "afterError" (or_introl eq_refl)
              (or_intror (or_intror (or_introl eq_refl))))
    as [Htree _].
  rewrite Htree. reflexivity.
Defined.


Lemma required_recorded_only_for_empty_values_witness :
  exists msg, Obj.get email_errors "email" = Some [("required", msg)].
Proof.
  destruct (required_recorded_only_for_empty_values helper_isEmpty
              sample_Validator flatten1 email_params [email_rule]
              email_errors "email" eq_refl)
    as [Hempty _].
  destruct (Hempty eq_refl) as [_ Hiff].
  apply Hiff. exists email_rule.
  split; [left; reflexivity|]. split; reflexivity.
Defined.

(** C6 as stated fails: a rule that carries [required: false] on an
    empty value records nothing. *)
Lemma falsy_required_spec_records_nothing :
  ~ (forall params accepts e a,
       Validate helper_isEmpty sample_Validator flatten1 (Some params)
         (Some accepts) = Returns e ->
       In a accepts ->
       helper_isEmpty (param params (arg a)) = true ->
       Obj.has (Obj.extend (validates a)) "required" = true ->
       exists msg, Obj.get e (arg a) = Some [("required", msg)]).
Proof.
  intros H.
  destruct (H email_params [optional_rule] [] optional_rule eq_refl
              (or_introl eq_refl) eq_refl eq_refl) as (msg & Hget).
  discriminate Hget.
Qed.


(** C8 (the code departs from the claim): a validator that throws
    [null] is caught, but the handler reads [e.message] and the
    resulting [TypeError] leaves [Validate]; this happens on the branch
    of the empty value and on the branch of the other validators
    alike, whatever the emptiness test and the validator package are. *)
Theorem thrown_null_escapes_Validate :
  forall (isEmpty : value -> bool)
         (Validator : string -> option (list value -> completion value))
         (lodash_flatten : list value -> list value),
    Validate isEmpty Validator lodash_flatten (Some name_params)
      (Some [mkAccept "name"
               (Some [("required", throws_null); ("check", throws_null)])])
    = Throws (VError "Cannot read property 'message' of null").
Proof.
  intros isEmpty Validator lodash_flatten.
  unfold Validate, Validate_with. simpl. unfold validate_accept. simpl.
  destruct (isEmpty (param name_params "name")); reflexivity.
Qed.

(** A thrown [Error] is contained: the next validator of the rule and
    the next rule are still evaluated and recorded. *)
Example thrown_error_lets_validation_go_on :
  Validate helper_isEmpty sample_Validator flatten1 (Some name_params)
    (Some [mkAccept "name"
             (Some [("check", throws_error);
                    ("isNull", SVal (VObj [("message", VStr "not null")]))]);
           email_rule])
  = Returns [("name", [("isNull", VStr "not null")]);
             ("email", [("required", VStr "email is required")])].
Proof. reflexivity. Qed.

End ConcreteRuns.

(** * Further properties *)

(** ** Objects, continued *)

Section ObjMore.

Context {V : Type}.
Implicit Types (o : Obj.obj V) (k : string) (v : V).

Lemma get_absent o k : ~ In k (Obj.keys o) -> Obj.get o k = None.
Proof.
  intros H. destruct (Obj.get o k) eqn:E; [|reflexivity].
  exfalso. apply H, get_in_keys. now rewrite E.
Qed.

Lemma set_absent o k v :
  ~ In k (Obj.keys o) -> Obj.set o k v = o ++ [(k, v)].
Proof.
  induction o as [|[k0 v0] o IH]; simpl; intros H; [reflexivity|].
  destruct (String.eqb_spec k0 k) as [->|Hne].
  - exfalso. apply H. now left.
  - rewrite IH; [reflexivity|]. intros Hin. apply H. now right.
Qed.

Lemma keys_app o o' : Obj.keys (o ++ o') = Obj.keys o ++ Obj.keys o'.
Proof. apply map_app. Qed.

End ObjMore.

(** ** The registry, continued *)

Section RegistryMore.

Import Poplar.

Variable minimatch : string -> string -> bool.

Implicit Types (p : Poplar) (b : ApiBuilder) (M phase type : string).

Lemma tree_step_new p (t : Obj.obj (Obj.obj (list string))) M :
  ~ In M (Obj.keys t) ->
  tree_step minimatch p t M = t ++ [(M, tree_entry minimatch p M)].
Proof.
  intros H. unfold tree_step. rewrite (get_absent _ _ H).
  now rewrite (set_absent _ _ _ H).
Qed.

Lemma tree_fold_closed p names (t : Obj.obj (Obj.obj (list string))) :
  NoDup names ->
  (forall n, In n names -> ~ In n (Obj.keys t)) ->
  fold_left (tree_step minimatch p) names t
  = t ++ map (fun M => (M, tree_entry minimatch p M)) names.
Proof.
  revert t. induction names as [|n names IH]; intros t Hnd Hfresh; simpl.
  - now rewrite app_nil_r.
  - inversion Hnd as [|? ? Hnin Hnd']; subst.
    rewrite tree_step_new by (apply Hfresh; now left).
    rewrite IH; [now rewrite <- app_assoc|exact Hnd'|].
    intros k Hk. rewrite keys_app, in_app_iff. simpl.
    intros [Hin|[->|[]]]; [|contradiction].
    now apply (Hfresh k (or_intror Hk)).
Qed.

(** X1: the tree that [analyzeListenerTree] builds has one entry per
    registered method, in the order of the method table, and every
    entry holds the three phases [before], [after], [afterError] in
    that order, each with the live scan for the method. *)
Theorem analyzeListenerTree_shape p :
  NoDup (Obj.keys (_methods p)) ->
  _listenerTree (analyzeListenerTree minimatch p)
  = map (fun M => (M, tree_entry minimatch p M)) (Obj.keys (_methods p)).
Proof.
  intros Hnd. unfold analyzeListenerTree. simpl.
  now rewrite tree_fold_closed.
Qed.

(** Whatever list an analysed tree holds for a method and a key is the
    live scan of that method for that key. *)
Lemma phases_entry_other p n (e0 : Obj.obj (list string)) type :
  ~ In type phases ->
  Obj.get
    (fold_left
       (fun e t => Obj.set e t (searchListeners minimatch p n t))
       phases e0) type
  = Obj.get e0 type.
Proof.
  intros Hnot. simpl.
  rewrite !get_set_ne; [reflexivity| | |];
    intros <-; apply Hnot; simpl; auto.
Qed.

Lemma tree_step_holds_scans p t n :
  holds_scans minimatch p t ->
  holds_scans minimatch p (tree_step minimatch p t n).
Proof.
  intros Hinv M e type l. unfold tree_step.
  destruct (string_dec n M) as [->|Hne].
  - rewrite get_set_eq.
    set (e0 := match Obj.get t M with Some x => x | None => Obj.empty end).
    intros [= <-].
    destruct (in_dec string_dec type phases) as [Hin|Hnot].
    + pose proof (phases_entry minimatch p M e0 type Hin) as Hp.
      simpl in Hp. rewrite Hp. now intros [= <-].
    + pose proof (phases_entry_other p M e0 type Hnot) as Hp.
      simpl in Hp. rewrite Hp. subst e0.
      destruct (Obj.get t M) as [e0|] eqn:Hget; [|discriminate].
      now apply Hinv.
  - rewrite get_set_ne by exact Hne. apply Hinv.
Qed.

Lemma analyzed_holds_scans p :
  holds_scans minimatch p (_listenerTree (analyzeListenerTree minimatch p)).
Proof.
  unfold analyzeListenerTree. simpl.
  assert (H : forall names t, holds_scans minimatch p t ->
            holds_scans minimatch p
              (fold_left (tree_step minimatch p) names t)).
  { induction names as [|n names IH]; intros t Ht; simpl; [exact Ht|].
    now apply IH, tree_step_holds_scans. }
  apply H. intros M e type l [=].
Qed.

(** X2: in a registry built by the registration calls, the list of
    listener names [execHooks] works with is the live scan, for every
    method (registered or not) and every phase string; the stack is the
    concatenation of the listeners of the scanned patterns; and when no
    pattern matches, [next] is called at once, without an error, in the
    state as it was. *)
Theorem listener_cache_is_transparent p when m :
  reachable minimatch p ->
  listenerNames minimatch p when m
  = searchListeners minimatch p (fullName m) when
  /\ hookStack minimatch p when m
     = flat_map (listeners p) (searchListeners minimatch p (fullName m) when)
  /\ (searchListeners minimatch p (fullName m) when = [] ->
      forall s (next : callback),
        execHooks minimatch p when m s next = next VUndefined s).
Proof.
  intros Hreach.
  assert (Hnames : listenerNames minimatch p when m
                   = searchListeners minimatch p (fullName m) when).
  { unfold listenerNames.
    destruct (searchListenerTree p (fullName m) when) as [[|n l]|] eqn:Ht;
      try reflexivity.
    simpl. unfold searchListenerTree in Ht.
    destruct (Obj.get (_listenerTree p) (fullName m)) as [e|] eqn:He;
      [|discriminate].
    rewrite <- (reachable_analyzed minimatch p Hreach) in He.
    exact (analyzed_holds_scans p _ _ _ _ He Ht). }
  split; [exact Hnames|].
  split; [now rewrite hookStack_flat_map, Hnames|].
  intros Hnone s next. unfold execHooks.
  rewrite hookStack_flat_map, Hnames, Hnone. reflexivity.
Qed.

(** X3: a listener added with the emitter's own [on] after the tree was
    analysed is not in the tree.  For a registered method whose cached
    list is not empty, [execHooks] keeps using the cached list: the new
    pattern is missing from it although the live scan finds it, and the
    stack is the one from before.  When the cached list is empty the
    fallback scan finds the new pattern. *)
Theorem on_without_analysis_is_missed p M phase type fn m :
  analyzeListenerTree minimatch p = p ->
  In M (Obj.keys (_methods p)) ->
  In phase phases ->
  ~ In type (Obj.keys (_events p)) ->
  minimatch (format_dot phase M) type = true ->
  fullName m = M ->
  In type (searchListeners minimatch (on type fn p) M phase)
  /\ (searchListeners minimatch p M phase <> [] ->
      listenerNames minimatch (on type fn p) phase m
      = searchListeners minimatch p M phase
      /\ ~ In type (listenerNames minimatch (on type fn p) phase m)
      /\ hookStack minimatch (on type fn p) phase m
         = hookStack minimatch p phase m)
  /\ (searchListeners minimatch p M phase = [] ->
      In type (listenerNames minimatch (on type fn p) phase m)).
Proof.
  intros Han HM Hphase Hnew Hmatch <-.
  assert (Hscan : In type (searchListeners minimatch (on type fn p)
                             (fullName m) phase)).
  { unfold searchListeners. apply filter_In. split; [|exact Hmatch].
    simpl. apply keys_set. now left. }
  assert (Htree : searchListenerTree (on type fn p) (fullName m) phase
                  = Some (searchListeners minimatch p (fullName m) phase)).
  { change (searchListenerTree (on type fn p) (fullName m) phase)
      with (searchListenerTree p (fullName m) phase).
    rewrite <- Han at 1. now apply analyzed_lookup. }
  assert (Hold : ~ In type (searchListeners minimatch p (fullName m) phase)).
  { unfold searchListeners. rewrite filter_In. tauto. }
  split; [exact Hscan|]. split.
  - intros Hne.
    assert (Hnames : listenerNames minimatch (on type fn p) phase m
                     = searchListeners minimatch p (fullName m) phase).
    { unfold listenerNames. rewrite Htree.
      destruct (searchListeners minimatch p (fullName m) phase);
        [now contradiction Hne | reflexivity]. }
    split; [exact Hnames|]. split; [now rewrite Hnames|].
    rewrite !hookStack_flat_map, Hnames.
    assert (Hcached : listenerNames minimatch p phase m
                      = searchListeners minimatch p (fullName m) phase).
    { unfold listenerNames.
      change (searchListenerTree p (fullName m) phase)
        with (searchListenerTree (on type fn p) (fullName m) phase).
      rewrite Htree.
      destruct (searchListeners minimatch p (fullName m) phase);
        reflexivity. }
    rewrite Hcached.
    assert (Hsame : forall l, ~ In type l ->
              flat_map (listeners (on type fn p)) l
              = flat_map (listeners p) l).
    { induction l as [|n l IH]; intros Hl; [reflexivity|].
      simpl. rewrite IH by (intros H; apply Hl; now right).
      rewrite listeners_on.
      destruct (String.eqb_spec type n) as [->|_]; [|reflexivity].
      exfalso. apply Hl. now left. }
    now apply Hsame.
  - intros Hempty. unfold listenerNames. rewrite Htree, Hempty. exact Hscan.
Qed.

End RegistryMore.

(** ** Merging a builder *)

Section UseMore.

Import Poplar.

Variable minimatch : string -> string -> bool.

Implicit Types (p : Poplar) (b : ApiBuilder) (t type : string).

Lemma merge_array_listeners type (fns : list (option hook)) p t :
  listeners
    (fold_left
       (fun self' fn =>
          match fn with
          | Some f => on type f self'
          | None => self'
          end) fns p) t
  = if type =? t then listeners p t ++ slot_fns (SlotArr fns)
    else listeners p t.
Proof.
  revert p. induction fns as [|[f|] fns IH]; intros p; simpl.
  - destruct (type =? t); [now rewrite app_nil_r | reflexivity].
  - rewrite IH, listeners_on.
    destruct (type =? t); [now rewrite <- app_assoc | reflexivity].
  - apply IH.
Qed.

Lemma mergeListeners_listeners b p t :
  listeners (mergeListeners b p) t = listeners p t ++ builder_listeners b t.
Proof.
  unfold mergeListeners, builder_listeners. revert p.
  induction (builder_events b) as [|[type sl] evs IH]; intros p; simpl.
  - now rewrite app_nil_r.
  - rewrite IH, app_assoc. f_equal.
    destruct sl as [fn|fns|]; simpl.
    + rewrite listeners_on. destruct (type =? t); [reflexivity|].
      now rewrite app_nil_r.
    + rewrite merge_array_listeners. destruct (type =? t); [reflexivity|].
      now rewrite app_nil_r.
    + destruct (type =? t); now rewrite app_nil_r.
Qed.

Lemma mergeMethods_events b p : _events (mergeMethods b p) = _events p.
Proof.
  unfold mergeMethods. revert p.
  induction (methods b) as [|kv l IH]; intros p; simpl; [reflexivity|].
  now rewrite IH.
Qed.

Lemma mergeMethods_other b p k :
  (forall mn, In mn (Obj.keys (methods b)) ->
              k <> format_dot (name b) mn) ->
  Obj.get (_methods (mergeMethods b p)) k = Obj.get (_methods p) k.
Proof.
  unfold mergeMethods. revert p.
  induction (methods b) as [|[mn fn] l IH]; intros p Hk; simpl;
    [reflexivity|].
  rewrite IH by (intros mn' Hin; apply Hk; now right). simpl.
  apply get_set_ne. intros Heq. apply (Hk mn); [now left | now symmetry].
Qed.

Lemma mergeMethods_closed b p :
  NoDup (Obj.keys (methods b)) ->
  (forall mn, In mn (Obj.keys (methods b)) ->
              ~ In (format_dot (name b) mn) (Obj.keys (_methods p))) ->
  _methods (mergeMethods b p) = _methods p ++ installed b.
Proof.
  unfold mergeMethods, installed. revert p.
  induction (methods b) as [|[mn fn] l IH]; intros p Hnd Hfresh; simpl.
  - now rewrite app_nil_r.
  - inversion Hnd as [|? ? Hnin Hnd']; subst.
    rewrite IH; simpl.
    + rewrite set_absent by (apply Hfresh; now left).
      now rewrite <- app_assoc.
    + exact Hnd'.
    + intros mn' Hin.
      rewrite set_absent by (apply Hfresh; now left).
      rewrite keys_app, in_app_iff. simpl.
      intros [Hold|[Heq|[]]].
      * now apply (Hfresh mn' (or_intror Hin)).
      * apply (format_dot_inj minimatch) in Heq. subst mn'. contradiction.
Qed.

(** What [use] returns, spelled out. *)
Lemma use_returns b p p' :
  use minimatch b p = Returns p' ->
  Obj.get (_apiBuilders p) (name b) = None
  /\ p' = analyzeListenerTree minimatch
            (mergeMethods b
               (mergeListeners b
                  (mkPoplar (Obj.set (_apiBuilders p) (name b) b)
                     (_methods p) (_events p) (_listenerTree p)))).
Proof.
  unfold use. destruct (Obj.get (_apiBuilders p) (name b));
    [discriminate|].
  intros [= <-]. now split.
Qed.

(** X4: a successful [use] appends, for every event type, the functions
    the builder holds for that type to the listeners the registry
    already had, in the builder's order; items that are not functions
    are left out and no listener is dropped or reordered. *)
Theorem use_appends_builder_listeners b p p' :
  use minimatch b p = Returns p' ->
  forall t, listeners p' t = listeners p t ++ builder_listeners b t.
Proof.
  intros Huse t. apply use_returns in Huse as [_ ->].
  unfold listeners at 1. simpl. rewrite mergeMethods_events.
  exact (mergeListeners_listeners b _ t).
Qed.

(** X5: a successful [use] changes the method table only under the
    names ["<name>.<methodName>"] of the builder's own methods, and the
    builder table only under the builder's name, where it stores the
    builder. *)
Theorem use_touches_its_collection_only b p p' :
  use minimatch b p = Returns p' ->
  (forall k,
     (forall mn, In mn (Obj.keys (methods b)) ->
                 k <> format_dot (name b) mn) ->
     Obj.get (_methods p') k = Obj.get (_methods p) k)
  /\ (forall n', n' <> name b ->
        Obj.get (_apiBuilders p') n' = Obj.get (_apiBuilders p) n')
  /\ Obj.get (_apiBuilders p') (name b) = Some b.
Proof.
  intros Huse. apply use_returns in Huse as [_ ->]. simpl.
  split.
  - intros k Hk. rewrite (mergeMethods_other b _ k Hk).
    now destruct (mergeListeners_tables b
      (mkPoplar (Obj.set (_apiBuilders p) (name b) b) (_methods p)
         (_events p) (_listenerTree p))) as [_ ->].
  - destruct (mergeMethods_fold minimatch (name b) (methods b)
                (mergeListeners b
                   (mkPoplar (Obj.set (_apiBuilders p) (name b) b)
                      (_methods p) (_events p) (_listenerTree p))))
      as (Hb & _ & _).
    unfold mergeMethods. rewrite Hb.
    destruct (mergeListeners_tables b
      (mkPoplar (Obj.set (_apiBuilders p) (name b) b) (_methods p)
         (_events p) (_listenerTree p))) as [-> _].
    simpl. split.
    + intros n' Hne. apply get_set_ne. intros Heq. now apply Hne.
    + apply get_set_eq.
Qed.

(** X6: when the builder's method names are distinct and none of their
    full names is in the method table yet, a successful [use] appends
    the builder's methods to the table in the builder's order, so
    [allMethods] returns the methods it returned before followed by the
    builder's. *)
Theorem use_appends_methods b p p' :
  use minimatch b p = Returns p' ->
  NoDup (Obj.keys (methods b)) ->
  (forall mn, In mn (Obj.keys (methods b)) ->
              ~ In (format_dot (name b) mn) (Obj.keys (_methods p))) ->
  _methods p' = _methods p ++ installed b
  /\ allMethods p' = allMethods p ++ map snd (methods b)
  /\ length (allMethods p') = length (allMethods p) + length (methods b).
Proof.
  intros Huse Hnd Hfresh. apply use_returns in Huse as [_ ->].
  assert (Hm : _methods
                 (analyzeListenerTree minimatch
                    (mergeMethods b
                       (mergeListeners b
                          (mkPoplar (Obj.set (_apiBuilders p) (name b) b)
                             (_methods p) (_events p) (_listenerTree p)))))
               = _methods p ++ installed b).
  { simpl. rewrite mergeMethods_closed; [|exact Hnd|].
    - now destruct (mergeListeners_tables b
        (mkPoplar (Obj.set (_apiBuilders p) (name b) b) (_methods p)
           (_events p) (_listenerTree p))) as [_ ->].
    - destruct (mergeListeners_tables b
        (mkPoplar (Obj.set (_apiBuilders p) (name b) b) (_methods p)
           (_events p) (_listenerTree p))) as [_ ->].
      exact Hfresh. }
  split; [exact Hm|].
  assert (Hall : allMethods
                   (analyzeListenerTree minimatch
                      (mergeMethods b
                         (mergeListeners b
                            (mkPoplar (Obj.set (_apiBuilders p) (name b) b)
                               (_methods p) (_events p)
                               (_listenerTree p)))))
                 = allMethods p ++ map snd (methods b)).
  { unfold allMethods. rewrite Hm, map_app. f_equal.
    unfold installed. rewrite map_map. reflexivity. }
  split; [exact Hall|].
  rewrite Hall, length_app, length_map. reflexivity.
Qed.

End UseMore.

(** ** Hook chains and invocations, continued *)

Section DispatchMore.

Import Poplar.

Variable minimatch : string -> string -> bool.

Implicit Types (p : Poplar) (m : method) (s : state) (cb : callback).

Lemma runStack_reaches when m pre cur post s s1 s2 sig :
  proceeds when m pre s = Some s1 ->
  call when cur m s1 = (s2, sig) ->
  runStack when m (pre ++ cur :: post) VUndefined s
  = match sig with
    | Continue e => runStack when m post e s2
    | Return (VThenable Fulfilled) => (s2, Signalled VUndefined)
    | Return (VThenable (Rejected reason)) => (s2, Signalled reason)
    | Return _ => (s2, Stalled)
    | Throw e => (s2, Signalled e)
    end.
Proof.
  intros Hpre Hcall.
  rewrite (runStack_proceeds when m pre _ VUndefined s s1 eq_refl Hpre).
  simpl. rewrite Hcall. reflexivity.
Qed.

Lemma reached_trace when m pre cur s s1 s2 sig :
  proceeds when m pre s = Some s1 ->
  call when cur m s1 = (s2, sig) ->
  trace s2 = trace s ++ ran when (pre ++ [cur]).
Proof.
  intros Hpre Hcall. apply call_trace in Hcall.
  apply proceeds_trace in Hpre. rewrite Hcall, Hpre.
  unfold ran. now rewrite map_app, <- app_assoc.
Qed.

(** X7: when the hooks before [cur] have all continued and [cur]
    throws, or returns a then-able that is rejected, [next] is called
    with the thrown value or the rejection reason as it is (truthy or
    not) in the state [cur] left, and no later hook of the stack is
    called. *)
Theorem hook_throw_or_rejection_reaches_next
    p when m s (next : callback) pre cur post s1 s2 sig e :
  hookStack minimatch p when m = pre ++ cur :: post ->
  proceeds when m pre s = Some s1 ->
  call when cur m s1 = (s2, sig) ->
  sig = Throw e \/ sig = Return (VThenable (Rejected e)) ->
  execHooks minimatch p when m s next = next e s2
  /\ trace s2 = trace s ++ ran when (pre ++ [cur]).
Proof.
  intros Hstack Hpre Hcall Hsig.
  split; [|exact (reached_trace _ _ _ _ _ _ _ _ Hpre Hcall)].
  rewrite execHooks_outcome. unfold runHooks. rewrite Hstack.
  rewrite (runStack_reaches _ _ _ _ post _ _ _ _ Hpre Hcall).
  now destruct Hsig as [-> | ->].
Qed.

(** X8: when the hooks before [cur] have all continued and [cur]
    returns without calling its continuation a value that is not a
    then-able, or a then-able that never settles, the chain rests
    there: the final state does not depend on [next], which is never
    called, and no later hook of the stack is called. *)
Theorem hook_without_signal_stalls_the_chain
    p when m s pre cur post s1 s2 result :
  hookStack minimatch p when m = pre ++ cur :: post ->
  proceeds when m pre s = Some s1 ->
  call when cur m s1 = (s2, Return result) ->
  has_then result = false \/ result = VThenable Pending ->
  (forall next : callback, execHooks minimatch p when m s next = s2)
  /\ trace s2 = trace s ++ ran when (pre ++ [cur]).
Proof.
  intros Hstack Hpre Hcall Hres.
  split; [|exact (reached_trace _ _ _ _ _ _ _ _ Hpre Hcall)].
  intros next. rewrite execHooks_outcome. unfold runHooks. rewrite Hstack.
  rewrite (runStack_reaches _ _ _ _ post _ _ _ _ Hpre Hcall).
  destruct Hres as [Hno | ->]; [|reflexivity].
  destruct result as [| | | | | | | |[|reason|]]; try reflexivity;
    discriminate Hno.
Qed.

Lemma runHooks_trace p when m s s' o :
  runHooks minimatch p when m s = (s', o) ->
  exists done, trace s' = trace s ++ ran when done.
Proof.
  intros H. apply runStack_prefix in H as (done & _ & _ & Ht).
  now exists done.
Qed.

Lemma in_ran w n when hs : In (Ran w n) (ran when hs) -> w = when.
Proof.
  unfold ran. rewrite in_map_iff. now intros (h & [= <- _] & _).
Qed.

(** The afterError chain started by [triggerErrorAndCallBack], with a
    recording callback. *)
Lemma afterError_tail p m E s0 :
  exists done tail,
    trace (execHooks minimatch p "afterError" m (assign "error" E s0)
             (fun hookErr => observe (js_or hookErr E)))
    = trace s0 ++ ran "afterError" done ++ tail
    /\ (tail = [] \/ exists h, tail = [Final (js_or h E)]).
Proof.
  rewrite execHooks_outcome.
  destruct (runHooks minimatch p "afterError" m (assign "error" E s0))
    as [s2 [h|]] eqn:Hae;
    apply runHooks_trace in Hae as (done & Ht); simpl in Ht.
  - exists done, [Final (js_or h E)]. split; [|right; now exists h].
    unfold observe, log. simpl. now rewrite Ht, <- app_assoc.
  - exists done, []. split; [|now left]. now rewrite app_nil_r.
Qed.

(** X9: when the before chain fails, the handler is not invoked and no
    after hook is called: the calls made are the before hooks that ran,
    then afterError hooks, then at most one call of the callback, with
    the afterError error or the error of the before chain. *)
Theorem before_failure_skips_handler_and_after_hooks p m s E sf :
  runHooks minimatch p "before" m s = (sf, Signalled E) ->
  truthy E = true ->
  exists done done' tail,
    trace (invokeMethodInContext minimatch p m s observe)
    = trace s ++ ran "before" done ++ ran "afterError" done' ++ tail
    /\ (tail = [] \/ exists h, tail = [Final (js_or h E)]).
Proof.
  intros Hb HE. unfold invokeMethodInContext.
  rewrite execHooks_outcome, Hb, HE.
  destruct (afterError_tail p m E sf) as (done' & tail & Ht & Htail).
  apply runHooks_trace in Hb as (done & Hd).
  exists done, done', tail. split; [|exact Htail].
  now rewrite Ht, Hd, <- app_assoc.
Qed.

(** X10: when the before chain, the handler and the after chain all
    end without an error, the callback is called without an error in
    the state the after chain left; the calls made are the before hooks,
    the handler, then the after hooks, and no afterError hook. *)
Theorem invocation_without_error_calls_back
    p m s cb s1 v c2 err result s4 e :
  runHooks minimatch p "before" m s = (s1, Signalled v) ->
  truthy v = false ->
  invoke_body m (ctx s1) = (c2, Callback err result) ->
  truthy err = false ->
  runHooks minimatch p "after" m
    (assign "result" result
       (mkState c2 (trace s1 ++ [Invoked (fullName m)])))
  = (s4, Signalled e) ->
  truthy e = false ->
  invokeMethodInContext minimatch p m s cb = cb VUndefined s4
  /\ exists done done',
       trace s4
       = trace s ++ ran "before" done ++ [Invoked (fullName m)]
         ++ ran "after" done'.
Proof.
  intros Hb Hv Hreply Herr Ha He. split.
  - rewrite (invoke_after_reply _ _ _ _ _ _ _ _ _ _ Hb Hv Hreply).
    simpl. now rewrite Herr, execHooks_outcome, Ha, He.
  - apply runHooks_trace in Hb as (done & Hd).
    apply runHooks_trace in Ha as (done' & Hd'). simpl in Hd'.
    exists done, done'. now rewrite Hd', Hd, <- !app_assoc.
Qed.

(** X11: afterError hooks are called only when the before chain or the
    after chain has failed: for every invocation, either one of the two
    chains fails, or no afterError hook is among the calls made. *)
Theorem afterError_hooks_need_a_chain_failure p m s :
  exists added,
    trace (invokeMethodInContext minimatch p m s observe)
    = trace s ++ added
    /\ ((exists E sf, chain_fails minimatch p m s E sf)
        \/ forall n, ~ In (Ran "afterError" n) added).
Proof.
  assert (Hnone : forall done n, ~ In (Ran "afterError" n) (ran "before" done))
    by (intros done n H; apply in_ran in H; discriminate).
  assert (Hnone' : forall done n, ~ In (Ran "afterError" n) (ran "after" done))
    by (intros done n H; apply in_ran in H; discriminate).
  unfold invokeMethodInContext. rewrite execHooks_outcome.
  destruct (runHooks minimatch p "before" m s) as [s1 [v|]] eqn:Hb.
  2: { apply runHooks_trace in Hb as (done & Hd). exists (ran "before" done).
       split; [exact Hd | right; apply Hnone]. }
  pose proof (runHooks_trace _ _ _ _ _ _ Hb) as (done & Hd).
  destruct (truthy v) eqn:Hv.
  { destruct (afterError_tail p m v s1) as (done' & tail & Ht & _).
    exists (ran "before" done ++ ran "afterError" done' ++ tail).
    split; [now rewrite Ht, Hd, <- app_assoc|].
    left. exists v, s1. now apply before_fails. }
  unfold invoke. simpl.
  destruct (invoke_body m (ctx s1)) as [c2 [err result|]] eqn:Hreply; simpl.
  2: { exists (ran "before" done ++ [Invoked (fullName m)]).
       split; [now rewrite Hd, <- app_assoc|]. right.
       intros n. rewrite in_app_iff. intros [H|[H|[]]];
         [now apply Hnone in H | discriminate H]. }
  destruct (truthy err) eqn:Herr.
  { exists (ran "before" done ++ [Invoked (fullName m); Final err]).
    split.
    - unfold observe, log. simpl. rewrite Hd, <- !app_assoc. reflexivity.
    - right. intros n. rewrite in_app_iff.
      intros [H|[H|[H|[]]]];
        [now apply Hnone in H | discriminate H | discriminate H]. }
  rewrite execHooks_outcome.
  destruct (runHooks minimatch p "after" m _) as [s4 [e|]] eqn:Ha.
  2: { apply runHooks_trace in Ha as (done' & Hd'). simpl in Hd'.
       exists (ran "before" done ++ [Invoked (fullName m)]
               ++ ran "after" done').
       split; [now rewrite Hd', Hd, <- !app_assoc|]. right.
       intros n. rewrite !in_app_iff. intros [H|[[H|[]]|H]];
         [now apply Hnone in H | discriminate H | now apply Hnone' in H]. }
  pose proof (runHooks_trace _ _ _ _ _ _ Ha) as (done' & Hd').
  simpl in Hd'.
  destruct (truthy e) eqn:He.
  - destruct (afterError_tail p m e s4) as (done'' & tail & Ht & _).
    exists (ran "before" done ++ [Invoked (fullName m)] ++ ran "after" done'
            ++ ran "afterError" done'' ++ tail).
    split; [now rewrite Ht, Hd', Hd, <- !app_assoc|].
    left. exists e, s4.
    exact (after_fails minimatch p m s e s4 s1 v err result c2
             Hb Hv Hreply Herr Ha He).
  - exists (ran "before" done ++ [Invoked (fullName m)] ++ ran "after" done'
            ++ [Final VUndefined]).
    split.
    + unfold observe, log. simpl. now rewrite Hd', Hd, <- !app_assoc.
    + right. intros n. rewrite !in_app_iff.
      intros [H|[[H|[]]|[H|[H|[]]]]];
        [now apply Hnone in H | discriminate H | now apply Hnone' in H
        | discriminate H].
Qed.

(** X12: there is no timeout.  When the before chain comes to rest
    without a signal, or the handler never calls back, or the after
    chain comes to rest without a signal, the invocation ends in that
    state whatever the callback is: the callback is never called. *)
Theorem invocation_rests_without_callback p m s s1 :
  (runHooks minimatch p "before" m s = (s1, Stalled) ->
   forall cb, invokeMethodInContext minimatch p m s cb = s1)
  /\ (forall v c2,
        runHooks minimatch p "before" m s = (s1, Signalled v) ->
        truthy v = false ->
        invoke_body m (ctx s1) = (c2, NoCallback) ->
        forall cb,
          invokeMethodInContext minimatch p m s cb
          = mkState c2 (trace s1 ++ [Invoked (fullName m)]))
  /\ (forall v c2 err result s4,
        runHooks minimatch p "before" m s = (s1, Signalled v) ->
        truthy v = false ->
        invoke_body m (ctx s1) = (c2, Callback err result) ->
        truthy err = false ->
        runHooks minimatch p "after" m
          (assign "result" result
             (mkState c2 (trace s1 ++ [Invoked (fullName m)])))
        = (s4, Stalled) ->
        forall cb, invokeMethodInContext minimatch p m s cb = s4).
Proof.
  split; [|split].
  - intros Hb cb. unfold invokeMethodInContext.
    now rewrite execHooks_outcome, Hb.
  - intros v c2 Hb Hv Hreply cb. unfold invokeMethodInContext.
    rewrite execHooks_outcome, Hb, Hv. unfold invoke. simpl.
    now rewrite Hreply.
  - intros v c2 err result s4 Hb Hv Hreply Herr Ha cb.
    rewrite (invoke_after_reply _ _ _ _ _ _ _ _ _ _ Hb Hv Hreply).
    simpl. now rewrite Herr, execHooks_outcome, Ha.
Qed.

End DispatchMore.

(** ** The error collector, continued *)

Section CollectorMore.

Import Validation.

Implicit Types (e : ValidationError) (n v : string) (msg : value).

(** X13: after [add(n, v, msg)] the collector holds under the parameter
    [n] and the validator [v] the message [msg], or the default message
    when [msg] is falsy; what it holds for every other parameter and
    validator is unchanged. *)
Theorem add_then_lookup n v msg e :
  message_at (add n v msg e) n v
  = Some (js_or msg (VStr (defaultMessage n v)))
  /\ forall n' v', (n', v') <> (n, v) ->
       message_at (add n v msg e) n' v' = message_at e n' v'.
Proof.
  unfold message_at, add. split.
  - now rewrite !get_set_eq.
  - intros n' v' Hne. destruct (string_dec n n') as [<-|Hn].
    + rewrite get_set_eq.
      rewrite get_set_ne by (intros <-; now apply Hne).
      now destruct (Obj.get e n).
    + now rewrite get_set_ne.
Qed.





Lemma append_not_empty_r (a b : string) : b <> "" -> (a ++ b)%string <> "".
Proof. destruct a; simpl; [tauto | discriminate]. Qed.

Lemma defaultMessage_not_empty n v : defaultMessage n v <> "".
Proof. unfold defaultMessage. apply append_not_empty_r. discriminate. Qed.

Lemma text_not_empty (f : string * string * value) : text f <> "".
Proof.
  unfold text. destruct (String.eqb_spec (toString (snd f)) "") as [_|H];
    [apply defaultMessage_not_empty | exact H].
Qed.

Lemma join_empty sep (l : list string) :
  Forall (fun t => t <> "") l -> (join sep l = "" <-> l = []).
Proof.
  intros Hall. split; [|now intros ->].
  destruct l as [|x [|y l]]; [reflexivity| |]; intros H; exfalso;
    inversion Hall as [|? ? Hx _]; subst; simpl in H.
  - now apply Hx.
  - destruct x; [now apply Hx | discriminate H].
Qed.

(** X15: no message of [flatten()] is the empty string (a stored
    message whose text is empty is replaced by the default message),
    so [toHuman()] is empty exactly when [flatten()] is. *)
Theorem flatten_has_no_empty_message e :
  Forall (fun t => t <> "") (flatten e)
  /\ (toHuman e = "" <-> flatten e = []).
Proof.
  assert (H : Forall (fun t => t <> "") (flatten e)).
  { rewrite flatten_triples. apply Forall_forall. intros t Hin.
    apply in_map_iff in Hin as (f & <- & _). apply text_not_empty. }
  split; [exact H | now apply join_empty].
Qed.

End CollectorMore.

(** ** Validate, continued *)

Section ValidateMore.

Import Validation.

Variable isEmpty : value -> bool.
Variable Validator : string -> option (list value -> completion value).
Variable lodash_flatten : list value -> list value.

Implicit Types (params : Obj.obj value) (l : list failure) (a : accept).

Lemma in_del {V : Type} (o : Obj.obj V) k (kv : string * V) :
  In kv (Obj.del o k) -> In kv o.
Proof.
  induction o as [|[k0 v0] o IH]; simpl; [tauto|].
  destruct (k0 =? k); simpl; intuition.
Qed.

Lemma in_extend {V : Type} (o : Obj.obj V) (kv : string * V) :
  In kv (Obj.extend (Some o)) -> In kv o.
Proof.
  unfold Obj.extend.
  assert (H : forall (l acc : Obj.obj V),
            In kv (fold_left (fun acc x => Obj.set acc (fst x) (snd x))
                     l acc) ->
            In kv acc \/ In kv l).
  { induction l as [|x l IH]; intros acc Hin; simpl in *; [now left|].
    destruct (IH _ Hin) as [Hset|Hl]; [|right; now right].
    destruct kv as [k v]. apply in_set in Hset as [[-> ->]|Hacc].
    - right. left. now destruct x.
    - now left. }
  intros Hin. destruct (H o Obj.empty Hin) as [[]|Hl]. exact Hl.
Qed.

Lemma message_at_has_pair (e : ValidationError) n v :
  message_at e n v <> None <-> has_pair e n v.
Proof.
  unfold message_at, has_pair. split.
  - destruct (Obj.get e n) as [obj|]; [|intros H; now contradiction H].
    intros H. now exists obj.
  - intros (obj & -> & H). exact H.
Qed.




Lemma log_accept_declared params accepts a l l' :
  In a accepts ->
  validate_accept isEmpty Validator lodash_flatten (list failure) record
    params a l = Returns l' ->
  exists new, l' = l ++ new /\ Forall (declared Validator accepts) new.
Proof.
  intros Ha. unfold validate_accept.
  assert (Hnone : exists new,
            l = l ++ new /\ Forall (declared Validator accepts) new)
    by (exists []; now rewrite app_nil_r).
  assert (Hone : forall v msg sp,
            Obj.get (Obj.extend (validates a)) v = Some sp ->
            match sp with
            | SFun _ => True
            | SVal _ => v = "required" \/ Validator v <> None
            end ->
            exists new, l ++ [(arg a, v, msg)] = l ++ new
                        /\ Forall (declared Validator accepts) new).
  { intros v msg sp Hget Hsp. eexists. split; [reflexivity|].
    constructor; [|constructor]. now exists a, sp. }
  destruct (isEmpty (param params (arg a))).
  - unfold check_required.
    destruct (Obj.get (Obj.extend (validates a)) "required")
      as [[fn|required]|] eqn:Hget.
    + intros H. apply log_try_function in H as [->|(r & _ & _ & ->)];
        [exact Hnone | now apply (Hone _ _ (SFun fn))].
    + destruct (truthy required); intros [= <-]; [|exact Hnone].
      apply (Hone _ _ (SVal required)); [exact Hget | now left].
    + intros [= <-]. exact Hnone.
  - clear Hnone Hone. revert l l'. apply log_each.
    intros [v sp] m m' Hin. simpl.
    assert (Hget : Obj.get (Obj.extend (validates a)) v = Some sp).
    { apply get_of_NoDup; [apply NoDup_keys_extend|].
      exact (in_del _ _ _ Hin). }
    assert (Hnone : exists new, m = m ++ new
                                /\ Forall (declared Validator accepts) new)
      by (exists []; now rewrite app_nil_r).
    assert (Hone : forall msg,
              match sp with
              | SFun _ => True
              | SVal _ => v = "required" \/ Validator v <> None
              end ->
              exists new, m ++ [(arg a, v, msg)] = m ++ new
                          /\ Forall (declared Validator accepts) new).
    { intros msg Hsp. eexists. split; [reflexivity|].
      constructor; [|constructor]. now exists a, sp. }
    unfold check_validator. simpl. destruct sp as [fn|opts].
    + intros H. apply log_try_function in H as [->|(r & _ & _ & ->)];
        [exact Hnone | now apply Hone].
    + destruct (negb _); [intros [= <-]; exact Hnone|].
      destruct (Validator v) as [validator|] eqn:Hv;
        [|intros [= <-]; exact Hnone].
      destruct (validator _) as [ok|ex]; simpl; [|discriminate].
      destruct (truthy ok); intros [= <-]; [exact Hnone|].
      apply Hone. right. discriminate.
Qed.

(** X17: every message in the collector [Validate] returns sits under a
    parameter that a rule names and under a validator that this rule
    declares; a validator given by options and not by a function is
    either [required] or a function of the validator package, so a
    validator name the package does not know never yields a failure. *)
Theorem failures_come_from_declared_validators params accepts e n v :
  Validate isEmpty Validator lodash_flatten (Some params) (Some accepts)
  = Returns e ->
  message_at e n v <> None ->
  exists a sp,
    In a accepts /\ arg a = n
    /\ Obj.get (Obj.extend (validates a)) v = Some sp
    /\ match sp with
       | SFun _ => True
       | SVal _ => v = "required" \/ Validator v <> None
       end.
Proof.
  intros Hrun Hmsg.
  destruct (Validate_replay isEmpty Validator lodash_flatten _ _ _ Hrun)
    as (l & Hlog & ->).
  destruct (replay_add_facts l) as [_ Hpairs].
  apply message_at_has_pair, Hpairs in Hmsg as (msg & Hin).
  unfold failures, Validate_with in Hlog.
  apply (log_each _ (declared Validator accepts)) in Hlog as (new & -> & Hq).
  - rewrite Forall_forall in Hq. exact (Hq _ Hin).
  - intros a m m' Ha. now apply log_accept_declared.
Qed.

Lemma each_returns {A S : Type} (f : A -> S -> completion S)
    (xs : list A) :
  (forall x c, In x xs -> exists c', f x c = Returns c') ->
  forall c, exists c', each xs f c = Returns c'.
Proof.
  induction xs as [|x xs IH]; intros Hstep c; simpl; [now exists c|].
  destruct (Hstep x c (or_introl eq_refl)) as (c1 & ->). simpl.
  apply IH. intros y c' Hin. apply Hstep. now right.
Qed.

(** X18: [Validate] returns a collector, and does not throw, whenever
    no function valued validator of the rules throws [undefined] or
    [null] and no function of the validator package throws. *)
Theorem Validate_returns_when_validators_behave params accepts :
  (forall a o v fn val ps ex,
     In a accepts -> validates a = Some o -> In (v, SFun fn) o ->
     fn val ps = Throws ex -> nullish ex = false) ->
  (forall v f args ex, Validator v = Some f -> f args <> Throws ex) ->
  exists e,
    Validate isEmpty Validator lodash_flatten (Some params) (Some accepts)
    = Returns e.
Proof.
  intros Hfun Hlib. unfold Validate, Validate_with.
  apply each_returns. intros a c Ha.
  assert (Htry : forall v fn n c0,
            In (v, SFun fn) (Obj.extend (validates a)) ->
            exists c', try_function ValidationError add fn n v
                         (param params (arg a)) params c0 = Returns c').
  { intros v fn n c0 Hin. unfold try_function.
    destruct (fn (param params (arg a)) params) as [r|ex] eqn:Hr;
      [now eexists|].
    destruct (validates a) as [o|] eqn:Ho; [|destruct Hin].
    apply in_extend in Hin.
    unfold message_of. rewrite (Hfun a o v fn _ _ ex Ha Ho Hin Hr).
    now eexists. }
  unfold validate_accept. destruct (isEmpty (param params (arg a))).
  - unfold check_required.
    destruct (Obj.get (Obj.extend (validates a)) "required")
      as [[fn|required]|] eqn:Hget; [|now eexists|now eexists].
    apply Htry. now apply get_in.
  - apply each_returns. intros [v sp] c0 Hin. apply in_del in Hin.
    unfold check_validator. simpl. destruct sp as [fn|opts].
    + now apply Htry.
    + destruct (negb _); [now eexists|].
      destruct (Validator v) as [validator|] eqn:Hv; [|now eexists].
      destruct (validator _) as [ok|ex] eqn:Hok; simpl; [now eexists|].
      now contradiction (Hlib v validator _ ex Hv Hok).
Qed.

(** X19: a falsy spec does not switch a validator off.  For a parameter
    whose value is not empty, a validator other than [required] whose
    spec is a falsy value is applied to the value alone, and its
    failure is recorded with the default message. *)
Theorem falsy_spec_still_runs_the_validator params n v opts f ok :
  isEmpty (param params n) = false ->
  v <> "required" ->
  truthy opts = false ->
  Validator v = Some f ->
  f [param params n] = Returns ok ->
  Validate isEmpty Validator lodash_flatten (Some params)
    (Some [mkAccept n (Some [(v, SVal opts)])])
  = Returns (if truthy ok then []
             else [(n, [(v, VStr (defaultMessage n v))])]).
Proof.
  intros Hemp Hv Hopts Hlib Hok.
  unfold Validate, Validate_with. simpl. unfold validate_accept. simpl.
  rewrite Hemp.
  destruct (String.eqb_spec v "required") as [->|_];
    [now contradiction Hv|].
  simpl. unfold check_validator. simpl. unfold js_or. rewrite Hopts.
  simpl. rewrite Hlib, Hok. simpl.
  now destruct (truthy ok).
Qed.

End ValidateMore.

(** ** Registering hooks *)

Section RegisterMore.

Import Poplar.

Variable minimatch : string -> string -> bool.

Implicit Types (p : Poplar) (b : ApiBuilder) (type : string).

Lemma analyzed_names p when m :
  analyzeListenerTree minimatch p = p ->
  listenerNames minimatch p when m
  = searchListeners minimatch p (fullName m) when.
Proof.
  intros Han. unfold listenerNames.
  destruct (searchListenerTree p (fullName m) when) as [[|n l]|] eqn:Ht;
    try reflexivity.
  simpl. unfold searchListenerTree in Ht.
  destruct (Obj.get (_listenerTree p) (fullName m)) as [e|] eqn:He;
    [|discriminate].
  rewrite <- Han in He.
  exact (analyzed_holds_scans minimatch p _ _ _ _ He Ht).
Qed.

Lemma filter_keys_set {V : Type} (f : string -> bool) (o : Obj.obj V) k x :
  f k = false ->
  filter f (Obj.keys (Obj.set o k x)) = filter f (Obj.keys o).
Proof.
  intros Hk. induction o as [|[k0 x0] o IH]; simpl.
  - now rewrite Hk.
  - destruct (String.eqb_spec k0 k) as [->|Hne]; simpl.
    + reflexivity.
    + now rewrite IH.
Qed.

Lemma register_generic p type fn :
  analyzeListenerTree minimatch p = p ->
  registers minimatch p (analyzeListenerTree minimatch (on type fn p))
    type fn.
Proof.
  intros Han.
  set (p' := analyzeListenerTree minimatch (on type fn p)).
  assert (Hl : forall t, listeners p' t = listeners (on type fn p) t)
    by reflexivity.
  assert (Hlast : listeners p' type = listeners p type ++ [fn]).
  { rewrite Hl, listeners_on. now rewrite String.eqb_refl. }
  split; [exact Hlast|].
  intros when m.
  assert (Hstack' : hookStack minimatch p' when m
                    = flat_map (listeners p')
                        (searchListeners minimatch p' (fullName m) when)).
  { rewrite hookStack_flat_map. f_equal. now apply analyzed_names. }
  split.
  - intros Hmatch. rewrite Hstack'. apply in_flat_map. exists type. split.
    + unfold searchListeners. apply filter_In. split; [|exact Hmatch].
      simpl. apply keys_set. now left.
    + rewrite Hlast. apply in_or_app. right. now left.
  - intros Hno. rewrite Hstack', hookStack_flat_map.
    rewrite (analyzed_names p when m Han).
    assert (Hscan : searchListeners minimatch p' (fullName m) when
                    = searchListeners minimatch p (fullName m) when).
    { unfold searchListeners. simpl. now apply filter_keys_set. }
    rewrite Hscan.
    assert (Hsame : forall names,
              (forall n, In n names -> n <> type) ->
              flat_map (listeners p') names = flat_map (listeners p) names).
    { induction names as [|n names IH]; intros Hn; [reflexivity|].
      simpl. rewrite IH by (intros k Hk; apply Hn; now right).
      rewrite Hl, listeners_on.
      destruct (String.eqb_spec type n) as [->|_]; [|reflexivity].
      now contradiction (Hn n (or_introl eq_refl)). }
    apply Hsame. intros n Hin ->.
    unfold searchListeners in Hin. apply filter_In in Hin as [_ Hm].
    rewrite Hno in Hm. discriminate Hm.
Qed.

(** X20: in a registry built by the registration calls, [before],
    [after] and [afterError] add the hook as the last listener of the
    event ["<phase>.<methodMatch>"]; from then on the hook is in the
    stack of every phase and method which that event matches, and the
    stacks of the phases and methods it does not match are unchanged. *)
Theorem registration_reaches_the_matching_methods p methodMatch fn :
  reachable minimatch p ->
  registers minimatch p (before minimatch methodMatch fn p)
    ("before." ++ methodMatch) fn
  /\ registers minimatch p (after minimatch methodMatch fn p)
       ("after." ++ methodMatch) fn
  /\ registers minimatch p (afterError minimatch methodMatch fn p)
       ("afterError." ++ methodMatch) fn.
Proof.
  intros Hreach.
  pose proof (reachable_analyzed minimatch p Hreach) as Han.
  repeat split; apply (register_generic p _ fn Han).
Qed.

Lemma merge_array_NoDup type (fns : list (option hook)) p :
  NoDup (Obj.keys (_events p)) ->
  NoDup (Obj.keys (_events
    (fold_left
       (fun self' fn =>
          match fn with
          | Some f => on type f self'
          | None => self'
          end) fns p))).
Proof.
  revert p. induction fns as [|[f|] fns IH]; intros p Hnd; simpl;
    [exact Hnd| |now apply IH].
  apply IH. simpl. now apply NoDup_keys_set.
Qed.

Lemma mergeListeners_NoDup b p :
  NoDup (Obj.keys (_events p)) ->
  NoDup (Obj.keys (_events (mergeListeners b p))).
Proof.
  unfold mergeListeners. revert p.
  induction (builder_events b) as [|[type sl] evs IH]; intros p Hnd; simpl;
    [exact Hnd|].
  apply IH. destruct sl as [fn|fns|]; simpl.
  - now apply NoDup_keys_set.
  - now apply merge_array_NoDup.
  - exact Hnd.
Qed.

Lemma mergeMethods_NoDup b p :
  NoDup (Obj.keys (_methods p)) ->
  NoDup (Obj.keys (_methods (mergeMethods b p))).
Proof.
  unfold mergeMethods. revert p.
  induction (methods b) as [|kv l IH]; intros p Hnd; simpl; [exact Hnd|].
  apply IH. simpl. now apply NoDup_keys_set.
Qed.

Lemma reachable_NoDup p :
  reachable minimatch p ->
  NoDup (Obj.keys (_methods p)) /\ NoDup (Obj.keys (_events p)).
Proof.
  induction 1 as [|mm fn p _ [Hm He]|mm fn p _ [Hm He]|mm fn p _ [Hm He]
                  |b p p' _ [Hm He] Huse].
  - split; constructor.
  - split; [exact Hm | simpl; now apply NoDup_keys_set].
  - split; [exact Hm | simpl; now apply NoDup_keys_set].
  - split; [exact Hm | simpl; now apply NoDup_keys_set].
  - apply (use_returns minimatch) in Huse as [_ ->]. simpl. split.
    + apply mergeMethods_NoDup.
      now destruct (mergeListeners_tables b
        (mkPoplar (Obj.set (_apiBuilders p) (name b) b) (_methods p)
           (_events p) (_listenerTree p))) as [_ ->].
    + rewrite mergeMethods_events. now apply mergeListeners_NoDup.
Qed.

(** X21: every registry built by the registration calls keeps these
    invariants: the method table and the event table have no key
    twice; the listener tree has exactly one entry per registered
    method, in the order of the method table, holding the live scans
    of the three phases; and the list of listener names of any phase
    and method names no pattern twice. *)
Theorem registry_invariants p :
  reachable minimatch p ->
  NoDup (Obj.keys (_methods p))
  /\ NoDup (Obj.keys (_events p))
  /\ _listenerTree p
     = map (fun M => (M, tree_entry minimatch p M)) (Obj.keys (_methods p))
  /\ forall when m, NoDup (listenerNames minimatch p when m).
Proof.
  intros Hreach.
  destruct (reachable_NoDup p Hreach) as [Hm He].
  pose proof (reachable_analyzed minimatch p Hreach) as Han.
  split; [exact Hm|]. split; [exact He|]. split.
  - rewrite <- Han at 1. unfold analyzeListenerTree. simpl.
    now rewrite tree_fold_closed.
  - intros when m. rewrite (analyzed_names p when m Han).
    unfold searchListeners. now apply NoDup_filter.
Qed.

End RegisterMore.

(** ** Empty values *)

Section EmptyValues.

Import Validation.

Variable isEmpty : value -> bool.
Variable Validator : string -> option (list value -> completion value).
Variable lodash_flatten : list value -> list value.

(** X22: for a parameter whose value is empty, [Validate] looks at the
    [required] spec of its rule and at nothing else: rule sets that
    agree on the parameter names, on the [required] specs of the
    parameters with an empty value and on the whole rule of the other
    parameters give the same result, so no other validator of an empty
    parameter is ever called. *)
Theorem empty_value_only_consults_required
    (params : Obj.obj value) (accepts accepts' : list accept) :
  Forall2 (same_for isEmpty params) accepts accepts' ->
  Validate isEmpty Validator lodash_flatten (Some params) (Some accepts)
  = Validate isEmpty Validator lodash_flatten (Some params) (Some accepts').
Proof.
  intros Hsame. unfold Validate, Validate_with.
  generalize new_ValidationError as c.
  induction Hsame as [|a a' xs xs' [Harg Hrule] _ IH]; intros c;
    [reflexivity|].
  simpl.
  assert (Hstep : validate_accept isEmpty Validator lodash_flatten
                    ValidationError add params a c
                  = validate_accept isEmpty Validator lodash_flatten
                      ValidationError add params a' c).
  { unfold validate_accept. rewrite <- Harg.
    destruct (isEmpty (param params (arg a))).
    - unfold check_required. now rewrite Hrule.
    - now rewrite Hrule. }
  rewrite Hstep.
  destruct (validate_accept _ _ _ _ _ params a' c) as [c'|ex]; simpl;
    [apply IH | reflexivity].
Qed.

End EmptyValues.

(** ** The further properties, run *)

Section MoreRuns.

Import Poplar Fixture Validation Scenario.

Lemma fixture_reachable : reachable literal_match poplar.
Proof.
  apply (reach_use literal_match apiBuilder hooked poplar);
    [|reflexivity].
  repeat constructor.
Defined.

Lemma analyzeListenerTree_shape_witness :
  _listenerTree (analyzeListenerTree literal_match poplar)
  = map (fun M => (M, tree_entry literal_match poplar M))
      (Obj.keys (_methods poplar)).
Proof.
  apply analyzeListenerTree_shape.
  constructor; [intros [] | constructor].
Defined.

Lemma listener_cache_is_transparent_witness :
  listenerNames literal_match poplar "after" test_method
  = searchListeners literal_match poplar (fullName test_method) "after".
Proof.
  exact (proj1 (listener_cache_is_transparent literal_match poplar "after"
                  test_method fixture_reachable)).
Defined.

Lemma on_without_analysis_is_missed_witness :
  In "before.test.*"
    (searchListeners star_match
       (on "before.test.*" (calls_next "late") wild) "test.method" "before")
  /\ hookStack star_match (on "before.test.*" (calls_next "late") wild)
       "before" test_method
     = hookStack star_match wild "before" test_method.
Proof.
  destruct (on_without_analysis_is_missed star_match wild "test.method"
              "before" "before.test.*" (calls_next "late") test_method
              eq_refl (or_introl eq_refl) (or_introl eq_refl))
    as (Hscan & Hmissed & _).
  - intros [H|[]]. discriminate H.
  - reflexivity.
  - reflexivity.
  - split; [exact Hscan|].
    destruct Hmissed as (_ & _ & Hstack); [discriminate | exact Hstack].
Defined.

Lemma use_appends_builder_listeners_witness :
  listeners users_registry "before.users.*"
  = listeners create "before.users.*"
    ++ builder_listeners listening_builder "before.users.*".
Proof.
  exact (use_appends_builder_listeners literal_match listening_builder
           create users_registry eq_refl "before.users.*").
Defined.

Lemma use_touches_its_collection_only_witness :
  Obj.get (_methods both) "test.method"
  = Obj.get (_methods poplar) "test.method".
Proof.
  destruct (use_touches_its_collection_only literal_match listening_builder
              poplar both eq_refl) as [Hother _].
  apply Hother. intros mn [<-|[<-|[]]]; discriminate.
Defined.

Lemma use_appends_methods_witness :
  length (allMethods both)
  = length (allMethods poplar) + length (methods listening_builder).
Proof.
  destruct (use_appends_methods literal_match listening_builder poplar both
              eq_refl) as (_ & _ & Hlen).
  - constructor; [intros [H|[]]; discriminate H|].
    constructor; [intros [] | constructor].
  - intros mn [<-|[<-|[]]] [H|[]]; discriminate H.
  - exact Hlen.
Defined.

Lemma hook_throw_or_rejection_reaches_next_witness :
  execHooks literal_match throwing "before" test_method start observe
  = observe (VError "boom") (mkState Obj.empty [Ran "before" "first"]).
Proof.
  exact (proj1 (hook_throw_or_rejection_reaches_next literal_match throwing
                  "before" test_method start observe []
                  (throws "first" (VError "boom")) [calls_next "second"]
                  start (mkState Obj.empty [Ran "before" "first"])
                  (Throw (VError "boom")) (VError "boom")
                  eq_refl eq_refl eq_refl (or_introl eq_refl))).
Defined.

Lemma hook_without_signal_stalls_the_chain_witness :
  execHooks literal_match stalling "before" test_method start observe
  = mkState Obj.empty [Ran "before" "first"].
Proof.
  exact (proj1 (hook_without_signal_stalls_the_chain literal_match stalling
                  "before" test_method start []
                  (returns "first" VUndefined) [calls_next "second"]
                  start (mkState Obj.empty [Ran "before" "first"])
                  VUndefined eq_refl eq_refl eq_refl (or_introl eq_refl))
           observe).
Defined.

Lemma before_failure_skips_handler_and_after_hooks_witness :
  exists done done' tail,
    trace (invokeMethodInContext literal_match guarded test_method start
             observe)
    = trace start ++ ran "before" done ++ ran "afterError" done' ++ tail
    /\ (tail = []
        \/ exists h, tail = [Final (js_or h (VError "Bad password!"))]).
Proof.
  exact (before_failure_skips_handler_and_after_hooks literal_match guarded
           test_method start (VError "Bad password!")
           (mkState Obj.empty [Ran "before" "guard"]) eq_refl eq_refl).
Defined.

Lemma invocation_without_error_calls_back_witness :
  invokeMethodInContext literal_match smooth test_method start observe
  = observe VUndefined
      (mkState [("result", VUndefined)]
         [Ran "before" "before_method_1"; Invoked "test.method";
          Ran "after" "after_method_1"]).
Proof.
  exact (proj1 (invocation_without_error_calls_back literal_match smooth
                  test_method start observe
                  (mkState Obj.empty [Ran "before" "before_method_1"])
                  VUndefined Obj.empty VUndefined VUndefined
                  (mkState [("result", VUndefined)]
                     [Ran "before" "before_method_1"; Invoked "test.method";
                      Ran "after" "after_method_1"])
                  VUndefined eq_refl eq_refl eq_refl eq_refl eq_refl
                  eq_refl)).
Defined.

Lemma invocation_rests_without_callback_witness :
  invokeMethodInContext literal_match smooth silent_method start observe
  = mkState Obj.empty
      [Ran "before" "before_method_1"; Invoked "test.method"].
Proof.
  destruct (invocation_rests_without_callback literal_match smooth
              silent_method start
              (mkState Obj.empty [Ran "before" "before_method_1"]))
    as (_ & Hsilent & _).
  exact (Hsilent VUndefined Obj.empty eq_refl eq_refl eq_refl observe).
Defined.

Lemma registration_reaches_the_matching_methods_witness :
  registers literal_match create
    (before literal_match "test.method" (calls_next "before_method_1")
       create)
    "before.test.method" (calls_next "before_method_1").
Proof.
  exact (proj1 (registration_reaches_the_matching_methods literal_match
                  create "test.method" (calls_next "before_method_1")
                  (reach_create literal_match))).
Defined.

Lemma registry_invariants_witness :
  NoDup (Obj.keys (_methods poplar))
  /\ NoDup (Obj.keys (_events poplar))
  /\ _listenerTree poplar
     = map (fun M => (M, tree_entry literal_match poplar M))
         (Obj.keys (_methods poplar))
  /\ forall when m, NoDup (listenerNames literal_match poplar when m).
Proof.
  exact (registry_invariants literal_match poplar fixture_reachable).
Defined.


Lemma failures_come_from_declared_validators_witness :
  exists a sp,
    In a [email_rule] /\ arg a = "email"
    /\ Obj.get (Obj.extend (validates a)) "required" = Some sp
    /\ match sp with
       | SFun _ => True
       | SVal _ =>
           "required" = "required" \/ sample_Validator "required" <> None
       end.
Proof.
  apply (failures_come_from_declared_validators helper_isEmpty
           sample_Validator flatten1 email_params [email_rule] email_errors
           "email" "required" eq_refl).
  discriminate.
Defined.

Lemma Validate_returns_when_validators_behave_witness :
  exists e,
    Validate helper_isEmpty sample_Validator flatten1 (Some email_params)
      (Some [email_rule]) = Returns e.
Proof.
  apply Validate_returns_when_validators_behave.
  - intros a o v fn val ps ex [<-|[]] [= <-] [H|[]]. discriminate H.
  - intros v f args ex. unfold sample_Validator.
    destruct (v =? "isNull").
    + intros [= <-]. destruct args as [|[] args]; discriminate.
    + destruct (v =? "isAny"); [|discriminate].
      intros [= <-]. discriminate.
Defined.

Lemma falsy_spec_still_runs_the_validator_witness :
  Validate helper_isEmpty sample_Validator flatten1 (Some name_params)
    (Some [mkAccept "name" (Some [("isNull", SVal (VBool false))])])
  = Returns [("name", [("isNull", VStr "name: 'isNull' validation failed")])].
Proof.
  apply (falsy_spec_still_runs_the_validator helper_isEmpty sample_Validator
           flatten1 name_params "name" "isNull" (VBool false) isNull
           (VBool false));
    [reflexivity | discriminate | reflexivity | reflexivity | reflexivity].
Defined.

Lemma empty_value_only_consults_required_witness :
  Validate helper_isEmpty sample_Validator flatten1 (Some email_params)
    (Some [email_rule_with_check])
  = Validate helper_isEmpty sample_Validator flatten1 (Some email_params)
      (Some [email_rule]).
Proof.
  apply empty_value_only_consults_required.
  constructor; [|constructor]. split; reflexivity.
Defined.

End MoreRuns.
